(** * IOS-Map: tenant CSV de-duplication and geocoding pipeline

    Shallow embedding of [clean_ios_csvs.py], [dedupe_ios_csv.py] and
    [excel-to-map.py] and the properties of their column cleaner,
    normaliser, address simplifier, de-duplicator, geocode cache, failure
    partition and map layers.

    Python text is a sequence of Unicode code points; it is modelled as
    [list N].  The whitespace class is Python's complete list.  The
    alphanumeric class and lower-casing are written out for U+0000..U+00FF
    (every CSV is read with [encoding="latin1"]); above U+00FF they come
    from the Unicode database, which is taken as a parameter
    ([UnicodeData]). *)

From Stdlib Require Import ZArith NArith QArith PrimFloat Lqa.
From stdpp Require Import gmap list strings sorting.

Local Open Scope N_scope.

(** ** Python text *)

Module Text.

Abbreviation str := (list N).

(** A literal of the source, given by its (Latin-1) characters. *)
Definition lit (s : string) : str :=
  Ascii.N_of_ascii <$> String.list_ascii_of_string s.

Definition in_range (lo hi c : N) : bool := (lo <=? c) && (c <=? hi).

(** [str.isspace], also the class [\s] of [re] on [str] patterns. *)
Definition isspace (c : N) : bool :=
  in_range 9 13 c || in_range 28 32 c || (c =? 133) || (c =? 160)
  || (c =? 5760) || in_range 8192 8202 c || (c =? 8232) || (c =? 8233)
  || (c =? 8239) || (c =? 8287) || (c =? 12288).

(** The part of the Unicode database the code reads above U+00FF. *)
Class UnicodeData := {
  isalnum_high : N → bool;      (* [str.isalnum] of one code point *)
  lower_high : N → list N       (* [str.lower] of one code point *)
}.

(** Text that stays within U+0000..U+00FF never reads the database; this
    instance serves the concrete runs below. *)
Definition latin1_only : UnicodeData :=
  {| isalnum_high := λ _, false; lower_high := λ c, [c] |}.

Section Classes.
Context `{UnicodeData}.

(** [str.isalnum] on one character. *)
Definition isalnum (c : N) : bool :=
  if c <? 256 then
    in_range 48 57 c || in_range 65 90 c || in_range 97 122 c
    || (c =? 170) || (c =? 178) || (c =? 179) || (c =? 181) || (c =? 185)
    || (c =? 186) || in_range 188 190 c || in_range 192 214 c
    || in_range 216 246 c || in_range 248 255 c
  else isalnum_high c.

(** The class [\w] of [re]: alphanumeric or underscore. *)
Definition isword (c : N) : bool := isalnum c || (c =? 95).

Definition lower_char (c : N) : list N :=
  if c <? 256 then
    if in_range 65 90 c || in_range 192 214 c || in_range 216 222 c
    then [c + 32] else [c]
  else lower_high c.

(** [str.lower]. *)
Definition lower (s : str) : str := s ≫= lower_char.

End Classes.

Fixpoint lstrip (s : str) : str :=
  match s with
  | c :: t => if isspace c then lstrip t else s
  | [] => []
  end.

Definition rstrip (s : str) : str := reverse (lstrip (reverse s)).

(** [str.strip()] *)
Definition strip (s : str) : str := rstrip (lstrip s).

Fixpoint starts_with (p s : str) : bool :=
  match p, s with
  | [], _ => true
  | a :: p', b :: s' => (a =? b) && starts_with p' s'
  | _ :: _, [] => false
  end.

(** [s.replace(old, new)] for a non-empty [old]: left to right, matches do
    not overlap; [skip] counts the characters of the current match still
    to be passed over. *)
Fixpoint replace_from (old new : str) (skip : nat) (s : str) : str :=
  match s with
  | [] => []
  | c :: t =>
      match skip with
      | S k => replace_from old new k t
      | O => if starts_with old s
             then new ++ replace_from old new (length old - 1) t
             else c :: replace_from old new 0 t
      end
  end.

Definition replace (old new s : str) : str :=
  match old with
  | [] => new ++ (s ≫= λ c, c :: new)
  | _ => replace_from old new 0 s
  end.

(** [s.split()]: the maximal runs of non-whitespace; [cur] is the run
    being read. *)
Fixpoint split_from (cur : str) (s : str) : list str :=
  match s with
  | [] => match cur with [] => [] | _ => [cur] end
  | c :: t =>
      if isspace c
      then match cur with [] => split_from [] t | _ => cur :: split_from [] t end
      else split_from (cur ++ [c]) t
  end.

Definition split (s : str) : list str := split_from [] s.

(** [sep.join(parts)] *)
Fixpoint join (sep : str) (parts : list str) : str :=
  match parts with
  | [] => []
  | [p] => p
  | p :: ps => p ++ sep ++ join sep ps
  end.

End Text.

(** ** The fragment of [re] the scripts use

    A backtracking matcher in continuation-passing style: quantifiers are
    greedy, alternatives are tried left to right, and the first complete
    match wins, as in Python's [re].  A continuation receives the character
    before the current position (for [\b]) and the rest of the input, and
    answers with what is left after the whole match. *)

Module Re.
Import Text.

Inductive re :=
| Eps
| Chr (p : N → bool)      (* one character of a class *)
| Star (p : N → bool)     (* [p*], greedy *)
| Opt (p : N → bool)      (* [p?], greedy *)
| Seq (a b : re)
| Alt (a b : re)
| WordB                   (* [\b] *)
| Eol.                    (* [$] without MULTILINE *)

Definition cont := option N → str → option str.

Definition accept : cont := λ _ s, Some s.

(** A literal letter under [re.IGNORECASE]; [p] is the lower-case ASCII
    letter.  Besides the two cases, [s] matches U+017F, [i] matches U+0130
    and U+0131, and [k] matches U+212A. *)
Definition ci (p c : N) : bool :=
  (c =? p) || (c =? p - 32)
  || ((p =? 115) && (c =? 383))
  || ((p =? 105) && ((c =? 304) || (c =? 305)))
  || ((p =? 107) && (c =? 8490)).

Fixpoint word_ci (w : str) : re :=
  match w with
  | [] => Eps
  | p :: w' => Seq (Chr (ci p)) (word_ci w')
  end.

Section Engine.
Context `{UnicodeData}.

Definition boundary (prev : option N) (s : str) : bool :=
  xorb (from_option isword false prev)
       (match s with c :: _ => isword c | [] => false end).

Fixpoint star (p : N → bool) (k : cont) (prev : option N) (s : str)
  : option str :=
  match s with
  | c :: t =>
      if p c
      then match star p k (Some c) t with
           | Some r => Some r
           | None => k prev s
           end
      else k prev s
  | [] => k prev []
  end.

Fixpoint run (r : re) (k : cont) (prev : option N) (s : str) : option str :=
  match r with
  | Eps => k prev s
  | Chr p =>
      match s with
      | c :: t => if p c then k (Some c) t else None
      | [] => None
      end
  | Star p => star p k prev s
  | Opt p =>
      match s with
      | c :: t =>
          if p c
          then match k (Some c) t with
               | Some r => Some r
               | None => k prev s
               end
          else k prev s
      | [] => k prev s
      end
  | Seq a b => run a (run b k) prev s
  | Alt a b =>
      match run a k prev s with
      | Some r => Some r
      | None => run b k prev s
      end
  | WordB => if boundary prev s then k prev s else None
  | Eol =>
      match s with
      | [] => k prev s
      | [10] => k prev s
      | _ => None
      end
  end.

(** A match of [r] that starts at the current position. *)
Definition match_at (r : re) (prev : option N) (s : str) : option str :=
  run r accept prev s.

(** [re.sub(r, repl, s)] for a pattern that matches no empty string (all
    four patterns of [strip_suite] begin with a mandatory character): the
    leftmost match is replaced and the scan resumes after it; [skip] counts
    the characters of the current match still to be passed over. *)
Fixpoint sub_from (r : re) (repl : str) (skip : nat) (prev : option N)
    (s : str) : str :=
  match s with
  | [] => []
  | c :: t =>
      match skip with
      | S n => sub_from r repl n (Some c) t
      | O =>
          match match_at r prev s with
          | Some rest =>
              repl ++ sub_from r repl (length s - length rest - 1)%nat (Some c) t
          | None => c :: sub_from r repl 0 (Some c) t
          end
      end
  end.

Definition sub (r : re) (repl : str) (s : str) : str :=
  sub_from r repl 0 None s.

End Engine.
End Re.

(** ** excel-to-map.py: text repair and address simplification *)

Module Simplify.
Import Text Re.

(** [s.encode("latin1")]: fails on a code point above U+00FF. *)
Definition encode_latin1 (s : str) : option (list N) :=
  if forallb (λ c, c <? 256) s then Some s else None.

Definition is_cont (b : N) : bool := in_range 128 191 b.
Definition low6 (b : N) : N := N.land b 63.

(** [bytes.decode("utf8")], strict: well-formed sequences only (no overlong
    form, no surrogate, nothing above U+10FFFF). *)
Fixpoint decode_utf8 (bs : list N) : option str :=
  match bs with
  | [] => Some []
  | b0 :: t0 =>
      if b0 <? 128 then cons b0 <$> decode_utf8 t0
      else if in_range 194 223 b0 then
        match t0 with
        | b1 :: t1 =>
            if is_cont b1
            then cons (N.shiftl (N.land b0 31) 6 + low6 b1) <$> decode_utf8 t1
            else None
        | _ => None
        end
      else if in_range 224 239 b0 then
        match t0 with
        | b1 :: b2 :: t2 =>
            if (if b0 =? 224 then in_range 160 191 b1
                else if b0 =? 237 then in_range 128 159 b1
                else is_cont b1) && is_cont b2
            then cons (N.shiftl (N.land b0 15) 12 + N.shiftl (low6 b1) 6
                       + low6 b2) <$> decode_utf8 t2
            else None
        | _ => None
        end
      else if in_range 240 244 b0 then
        match t0 with
        | b1 :: b2 :: b3 :: t3 =>
            if (if b0 =? 240 then in_range 144 191 b1
                else if b0 =? 244 then in_range 128 143 b1
                else is_cont b1) && is_cont b2 && is_cont b3
            then cons (N.shiftl (N.land b0 7) 18 + N.shiftl (low6 b1) 12
                       + N.shiftl (low6 b2) 6 + low6 b3) <$> decode_utf8 t3
            else None
        | _ => None
        end
      else None
  end.

(** The [replacements] dict, in insertion order, as the interpreter reads
    the file: every key is a sequence of code points below U+0100, and the
    third key is the ASCII hyphen itself. *)
Definition replacements : list (str * str) :=
  [ ([195; 131; 194; 162; 195; 130; 194; 128; 195; 130; 194; 145], lit "-");
    ([195; 162; 194; 128; 194; 145], lit "-");
    (lit "-", lit "-");
    ([226; 128; 147], lit "-");
    ([226; 128; 148], lit "-");
    ([195; 131; 194; 162; 195; 130; 194; 128; 195; 130; 194; 153], lit "'");
    ([195; 162; 194; 128; 194; 153], lit "'");
    ([226; 128; 153], lit "'") ].

(** [fix_encoding] on a [str] argument. *)
Definition fix_encoding (s : str) : str :=
  let s1 := default s (encode_latin1 s ≫= decode_utf8) in
  let s2 := foldl (λ acc '(bad, good), replace bad good acc) s1 replacements in
  join (lit " ") (split s2).

Definition comma (c : N) : bool := c =? 44.
Definition dot (c : N) : bool := c =? 46.
Definition hash (c : N) : bool := c =? 35.

(** [(Suite|Ste\.?|Unit|Bldg\.?|Building)] with IGNORECASE *)
Definition keyword_re : re :=
  Alt (word_ci (lit "suite"))
 (Alt (Seq (word_ci (lit "ste")) (Opt dot))
 (Alt (word_ci (lit "unit"))
 (Alt (Seq (word_ci (lit "bldg")) (Opt dot))
      (word_ci (lit "building"))))).

(** [,\s*(Suite|Ste\.?|Unit|Bldg\.?|Building)\b[^,]*] with IGNORECASE *)
Definition suite_re : re :=
  Seq (Chr comma) (Seq (Star isspace)
    (Seq keyword_re (Seq WordB (Star (λ c, negb (comma c)))))).

Section StripSuite.
Context `{UnicodeData}.

(** [#\s*\w+] *)
Definition hash_re : re :=
  Seq (Chr hash) (Seq (Star isspace) (Seq (Chr isword) (Star isword))).

(** [\s{2,}] *)
Definition spaces_re : re :=
  Seq (Chr isspace) (Seq (Chr isspace) (Star isspace)).

(** [[,\s]+$] *)
Definition trailing_re : re :=
  Seq (Chr (λ c, comma c || isspace c))
      (Seq (Star (λ c, comma c || isspace c)) Eol).

(** [strip_suite] on a [str] argument. *)
Definition strip_suite (addr : str) : str :=
  let addr := fix_encoding addr in
  let addr := sub suite_re [] addr in
  let addr := sub hash_re [] addr in
  let addr := strip (sub spaces_re (lit " ") addr) in
  sub trailing_re [] addr.

(** *** Suite fragments, said directly

    The address seen as its pieces between commas.  A piece is a suite
    fragment when, after leading whitespace, it begins with one of the five
    keywords in any letter case, and the keyword ends there as a word: the
    piece ends, or goes on with a character that is not a word character
    (so a period may follow). *)

Definition keywords : list str :=
  [lit "suite"; lit "ste"; lit "unit"; lit "bldg"; lit "building"].

(** What is left of [s] after the letters of [w], if [s] begins with them
    in either case. *)
Fixpoint ci_prefix (w s : str) : option str :=
  match w, s with
  | [], _ => Some s
  | p :: w', c :: s' => if ci p c then ci_prefix w' s' else None
  | _ :: _, [] => None
  end.

Definition keyword_at (w s : str) : bool :=
  match ci_prefix w s with
  | Some [] => true
  | Some (c :: _) => negb (isword c)
  | None => false
  end.

Definition suite_fragment (piece : str) : bool :=
  existsb (λ w, keyword_at w (lstrip piece)) keywords.

(** The pieces after the first, each with the comma before it. *)
Definition with_commas (pieces : list str) : str :=
  concat ((λ piece, 44 :: piece) <$> pieces).

Definition without_fragments (pieces : list str) : str :=
  concat ((λ piece, if suite_fragment piece then [] else 44 :: piece)
            <$> pieces).

Definition comma_free (s : str) : Prop := Forall (λ c, c ≠ 44) s.

(** What may follow a piece: the end of the text, or the next comma. *)
Definition barrier (rest : str) : Prop := rest = [] ∨ ∃ t, rest = 44 :: t.

End StripSuite.
End Simplify.

(** ** What the scripts see of pandas

    A cell read by [pandas.read_csv] is text or missing (NaN); [None] is
    kept because [normalize_text] tests for it.  A frame is its header and
    its rows; a short row reads as missing cells.  A column is addressed by
    name, here the first one of that name. *)

Module Pandas.
Import Text.

Inductive pyval :=
| PNone
| PNaN
| PStr (s : str).

#[global] Instance pyval_eq_dec : EqDecision pyval.
Proof. solve_decision. Defined.

(** [str(v)] *)
Definition py_str (v : pyval) : str :=
  match v with
  | PNone => lit "None"
  | PNaN => lit "nan"
  | PStr s => s
  end.

Record frame := Frame {
  columns : list pyval;
  rows : list (list pyval)
}.

Fixpoint index_of (name : pyval) (cols : list pyval) : option nat :=
  match cols with
  | [] => None
  | c :: cs => if decide (c = name) then Some 0%nat else S <$> index_of name cs
  end.

(** [row[name]] in a frame with header [cols] that has the column, and
    has it once.  A label that names several columns selects a frame, not
    a column: the scripts raise there ([duplicated] below), and no run that
    returns reads such a label. *)
Definition cell (cols : list pyval) (name : string) (row : list pyval) : pyval :=
  match index_of (PStr (lit name)) cols with
  | Some i => default PNaN (row !! i)
  | None => PNaN
  end.

(** Whether [name] labels more than one column of the header. *)
Definition duplicated (name : pyval) (cols : list pyval) : bool :=
  bool_decide (1 < length (filter (λ c, c = name) cols))%nat.

End Pandas.

(** ** dedupe_ios_csv.py *)

Module Dedupe.
Import Text Re Pandas.

Section Normalize.
Context `{UnicodeData}.

(** [[^\w\s]] *)
Definition punct_re : re := Chr (λ c, negb (isword c || isspace c)).

(** [\s+] *)
Definition spaces_re : re := Seq (Chr isspace) (Star isspace).

Definition normalize_text (s : pyval) : str :=
  match s with
  | PNone => []
  | _ =>
      let s := strip (lower (py_str s)) in
      let s := sub punct_re [] s in       (* remove punctuation *)
      sub spaces_re (lit " ") s           (* collapse whitespace *)
  end.

(** The [_dedupe_key] column. *)
Definition dedupe_key (cols : list pyval) (row : list pyval) : str :=
  normalize_text (cell cols "Address" row) ++ lit "|"
  ++ normalize_text (cell cols "State" row).

End Normalize.

(** [drop_duplicates(subset=key, keep="first")]: a row stays when no
    earlier row had its key; [seen] holds the keys met so far. *)
Fixpoint drop_duplicates {A} (key : A → str) (seen : gset str) (l : list A)
  : list A :=
  match l with
  | [] => []
  | r :: rs =>
      if decide (key r ∈ seen)
      then drop_duplicates key seen rs
      else r :: drop_duplicates key ({[key r]} ∪ seen) rs
  end.

Inductive message :=
| AvailableColumns (cols : list pyval)
| DeduplicationComplete
| RowsBefore (n : Z)
| RowsAfter (n : Z)
| Removed (n : Z)
| FileUpdated.

Inductive error :=
| FileNotFoundError
| ValueError_missing (missing : list pyval)
| ValueError_duplicate_labels.   (* cannot reindex on an axis with duplicate labels *)

(** What a run leaves behind: the console, the exception that ended it if
    any, and the frame written over the CSV if one was written. *)
Record outcome := Outcome {
  stdout : list message;
  raised : option error;
  written : option frame
}.

Definition required : list pyval := [PStr (lit "Address"); PStr (lit "State")].

(** [c.strip()] on a header cell; [read_csv] names every column by text. *)
Definition strip_name (c : pyval) : pyval := PStr (strip (py_str c)).

Section Main.
Context `{UnicodeData}.

(** [main]: [file] is [None] when the path does not exist, otherwise the
    frame [load_with_real_header] returns.  When two names of the header
    are equal to Address, or to State, once trimmed, [df["Address"]] (or
    [df["State"]]) is a frame and not a column, the key that is built from
    it cannot be set as a column, and pandas raises [ValueError] before
    anything is printed or written. *)
Definition main (file : option frame) : outcome :=
  match file with
  | None => Outcome [] (Some FileNotFoundError) None
  | Some df =>
      let cols := strip_name <$> columns df in
      let missing := filter (λ c, c ∉ cols) required in
      match missing with
      | _ :: _ =>
          Outcome [AvailableColumns cols] (Some (ValueError_missing missing)) None
      | [] =>
          if existsb (λ c, duplicated c cols) required
          then Outcome [] (Some ValueError_duplicate_labels) None
          else
            let before := Z.of_nat (length (rows df)) in
            let kept := drop_duplicates (dedupe_key cols) ∅ (rows df) in
            let after := Z.of_nat (length kept) in
            Outcome [DeduplicationComplete; RowsBefore before; RowsAfter after;
                     Removed (before - after)%Z; FileUpdated]
                    None
                    (Some (Frame cols kept))
      end
  end.

End Main.

(** *** Differing only in case and punctuation

    In the words of the specification a punctuation character is one that
    is neither alphanumeric nor whitespace; two texts differ only in case
    and punctuation when they agree once such characters are deleted and
    the rest is lower-cased. *)

Section Wording.
Context `{UnicodeData}.

Definition punctuation (c : N) : bool := negb (isalnum c || isspace c).






End Wording.




(** A header without State; the name of the first column has blanks
    around it. *)
Definition no_state_column : frame :=
  Frame [PStr (lit " Address "); PStr (lit "Tenant")]
        [[PStr (lit "1 Main St"); PStr (lit "A")]].

End Dedupe.

(** ** excel-to-map.py: loading, geocoding, failure partition *)

Module Enrich.
Import Text Re Pandas Simplify.

(** One row of the cleaned frame: the five kept columns and the two
    derived ones. *)
Record row := Row {
  Tenant : str;
  Location : str;
  Address : str;
  City : str;
  State : str;
  clean_address : str;
  full_address : str
}.

Inductive load_error :=
| IndexError
| ValueError (missing : list string)
| AttributeError.      (* a frame has no [.str]: a name labels two columns *)

Definition EXPECTED_COLS : list string :=
  ["Tenant"; "Location"; "Address"; "City"; "State"]%string.

(** [df[col].astype(str).str.strip().apply(fix_encoding)] on one cell *)
Definition clean_cell (v : pyval) : str := fix_encoding (strip (py_str v)).

Section Load.
Context `{UnicodeData}.

Definition clean_row (cols : list pyval) (r : list pyval) : row :=
  let tenant := clean_cell (cell cols "Tenant" r) in
  let location := clean_cell (cell cols "Location" r) in
  let address := clean_cell (cell cols "Address" r) in
  let city := clean_cell (cell cols "City" r) in
  let state := clean_cell (cell cols "State" r) in
  let clean := strip_suite address in
  Row tenant location address city state clean
      (clean ++ lit ", " ++ city ++ lit ", " ++ state ++ lit ", USA").

(** The frame after the header fix: when the first row holds the names
    Tenant and Location, it becomes the header and is dropped. *)
Definition fix_header (df : frame) (first : list pyval)
    (rest : list (list pyval)) : frame :=
  let first_row_values := (λ v, strip (py_str v)) <$> first in
  if bool_decide (lit "Tenant" ∈ first_row_values)
     && bool_decide (lit "Location" ∈ first_row_values)
  then Frame first rest
  else df.

(** [load_and_clean], from the frame [pd.read_csv] returns. *)
Definition load_and_clean (df : frame) : load_error + list row :=
  match rows df with
  | [] => inl IndexError                       (* [df.iloc[0]] *)
  | first :: rest =>
      let df := fix_header df first rest in
      let missing :=
        filter (λ c, PStr (lit c) ∉ columns df) EXPECTED_COLS in
      match missing with
      | _ :: _ => inl (ValueError missing)
      | [] =>
          (* [df[col]] is a frame when [col] labels two columns *)
          if existsb (λ c, duplicated (PStr (lit c)) (columns df)) EXPECTED_COLS
          then inl AttributeError
          else inr (clean_row (columns df) <$> rows df)
      end
  end.

End Load.

(** *** The geocoder

    [geolocator.geocode] is the external provider.  It answers a query with
    a location, with nothing, or by raising; it may depend on everything
    that happened before, and a call takes some time.  Time is in seconds. *)

Inductive signal :=
| GeocoderUnavailable
| GeocoderTimedOut
| GeocoderServiceError     (* any other error of the service *)
| OtherException.

Inductive answer :=
| Found (latitude longitude : float)
| NoLocation
| Raises (e : signal).

(** A request is logged with the answer it got. *)
Inductive event :=
| Request (query : str) (ans : answer)
| Sleep (seconds : Q).

(** The clock, the rate limiter's [_last_call], and what happened so far,
    newest first. *)
Record world := World {
  clock : Q;
  last_call : option Q;
  trace : list event
}.

Abbreviation coords := (option float * option float)%type.

(** The arguments of [RateLimiter(...)]. *)
Definition min_delay_seconds : Q := 1%Q.
Definition max_retries : nat := 3%nat.
Definition error_wait_seconds : Q := 5%Q.

(** [geopy.extra.rate_limiter.RateLimiter] is library code.  Its contract:
    before every call it waits until [min_delay_seconds] have passed since
    the previous one; an error of the service ([GeocoderServiceError] and
    its subclasses, among them [GeocoderUnavailable] and
    [GeocoderTimedOut]) is retried after [error_wait_seconds], at most
    [max_retries] times, so that at most [max_retries + 1] requests are
    made per query; with [swallow_exceptions] the last such error becomes
    the return value [None]; any other exception is re-raised at once. *)
Definition retried (e : signal) : bool :=
  match e with
  | OtherException => false
  | _ => true
  end.

Inductive reply :=
| Returned (loc : option (float * float))
| Raised (e : signal).

Definition sleep (seconds : Q) (w : world) : world :=
  World (clock w + seconds)%Q (last_call w) (Sleep seconds :: trace w).

Definition set_last_call (w : world) : world :=
  World (clock w) (Some (clock w)) (trace w).

(** [_acquire_request_slot]: the loop sleeps for the time still missing
    and looks at the clock again; after that sleep nothing is missing
    ([acquire_second_look] below), so its second round returns. *)
Definition acquire_request_slot (w : world) : world :=
  match last_call w with
  | None => set_last_call w
  | Some t =>
      let wait := (min_delay_seconds - (clock w - t))%Q in
      if Qle_bool wait 0%Q then set_last_call w
      else set_last_call (sleep wait w)
  end.

Section Geocoder.
Variable provider : world → str → answer * Q.

Definition call_provider (q : str) (w : world) : answer * world :=
  let '(a, took) := provider w q in
  (a, World (clock w + took)%Q (last_call w) (Request q a :: trace w)).

(** [RateLimiter.__call__] with [retries] retries left. *)
Fixpoint rate_limited (retries : nat) (q : str) (w : world) : reply * world :=
  let '(a, w) := call_provider q (acquire_request_slot w) in
  match a with
  | Found la lo => (Returned (Some (la, lo)), w)
  | NoLocation => (Returned None, w)
  | Raises e =>
      if retried e then
        match retries with
        | O => (Returned None, w)             (* swallowed *)
        | S n => rate_limited n q (sleep error_wait_seconds w)
        end
      else (Raised e, w)
  end.

Definition geocode : str → world → reply * world := rate_limited max_retries.

(** [geocode_one]: the closure over [cache]; the state is the cache and
    the world.  Every [except] branch yields [(None, None)]. *)
Definition geocode_one (addr : str) (st : gmap str coords * world)
  : coords * (gmap str coords * world) :=
  let addr := strip addr in
  match addr with
  | [] => ((None, None), st)
  | _ =>
      match st.1 !! addr with
      | Some result => (result, st)
      | None =>
          let '(r, w) := geocode addr st.2 in
          let result :=
            match r with
            | Returned (Some (la, lo)) => (Some la, Some lo)
            | Returned None => (None, None)
            | Raised _ => (None, None)
            end in
          (result, (<[addr := result]> st.1, w))
      end
  end.

(** A row of the frame once [lat] and [lon] are set. *)
Record enriched := Enriched {
  base : row;
  lat : option float;
  lon : option float
}.

(** [isna]: [None] or NaN. *)
Definition isna (v : option float) : bool :=
  match v with
  | None => true
  | Some x => is_nan x
  end.

(** The loop over [df["full_address"]]. *)
Fixpoint geocode_rows (df : list row) (st : gmap str coords * world)
  : list enriched * (gmap str coords * world) :=
  match df with
  | [] => ([], st)
  | r :: rs =>
      let '((la, lo), st) := geocode_one (full_address r) st in
      let '(es, st) := geocode_rows rs st in
      (Enriched r la lo :: es, st)
  end.

Definition is_failed (e : enriched) : bool := isna (lat e) || isna (lon e).
Definition is_resolved (e : enriched) : bool :=
  negb (isna (lat e)) && negb (isna (lon e)).

(** What [geocode_addresses] leaves: the frame it returns, the content of
    [geocode_failures.csv] if it wrote the file, and the final state.  The
    progress lines it prints are left out. *)
Record report := Report {
  with_coords : list enriched;         (* every row, before the split *)
  returned : list enriched;
  failures_csv : option (list enriched);
  state_after : gmap str coords * world
}.

(** The number of requests sent to the provider so far. *)
Definition requests (w : world) : nat :=
  length (List.filter (λ e, match e with Request _ _ => true | Sleep _ => false end)
                      (trace w)).

Definition geocode_addresses (df : list row)
    (existing_cache : option (gmap str coords)) (w : world) : report :=
  let cache := default ∅ existing_cache in
  let '(all, st) := geocode_rows df (cache, w) in
  let df_failed := List.filter is_failed all in
  let df := List.filter is_resolved all in
  Report all df
         (match df_failed with [] => None | _ => Some df_failed end)
         st.

End Geocoder.
(** *** The retry policy, as a property of the trace

    [attempts q evs n a]: the events [evs], oldest first, are [n] requests
    for [q]; the last one was answered [a]; each earlier one raised an
    error of the service and was followed by a sleep of
    [error_wait_seconds]; before a request there may be one sleep of the
    rate limiter. *)

Inductive slot_wait : list event → Prop :=
| slot_free : slot_wait []
| slot_waited d : slot_wait [Sleep d].

Inductive attempts (q : str) : list event → nat → answer → Prop :=
| attempt_last slot a :
    slot_wait slot →
    attempts q (slot ++ [Request q a]) 1 a
| attempt_retry slot e rest n a :
    slot_wait slot → retried e = true →
    attempts q rest n a →
    attempts q (slot ++ Request q (Raises e) :: Sleep error_wait_seconds :: rest)
             (S n) a.

Definition retried_error (a : answer) : bool :=
  match a with
  | Raises e => retried e
  | _ => false
  end.

(** What [RateLimiter.__call__] hands back for the last answer. *)
Definition reply_of (a : answer) : reply :=
  match a with
  | Found la lo => Returned (Some (la, lo))
  | NoLocation => Returned None
  | Raises e => if retried e then Returned None else Raised e
  end.

(** The coordinates [geocode_one] makes of the last answer. *)
Definition answer_coords (a : answer) : coords :=
  match a with
  | Found la lo => (Some la, Some lo)
  | NoLocation => (None, None)
  | Raises _ => (None, None)
  end.

(** A provider that is unavailable for the first three requests and then
    finds the place. *)
Definition flaky_provider (w : world) (q : str) : answer * Q :=
  if (requests w <? 3)%nat
  then (Raises GeocoderUnavailable, 0%Q)
  else (Found 27.5%float (-82.5)%float, 0%Q).

(** An empty cache at the start of a run, and a query. *)
Definition fresh : gmap str coords * world := (∅, World 0%Q None []).
Definition tampa : str := lit "1 Main St, Tampa, FL, USA".

(** A cleaned CSV of one row, as [pd.read_csv] returns it. *)
Definition one_tenant : frame :=
  Frame [PStr (lit "Tenant"); PStr (lit "Location"); PStr (lit "Address");
         PStr (lit "City"); PStr (lit "State")]
        [[PStr (lit "A"); PStr (lit "Tampa DC");
          PStr (lit "1 Main St,  Suite 5"); PStr (lit "Tampa");
          PStr (lit "FL")]].

End Enrich.

(** ** clean_ios_csvs.py *)

Module Clean.
Import Text Pandas.

(** A path of the working directory: [Path(name)] with its [stem] and
    [suffix]. *)
Record path := Path {
  stem : string;
  suffix : string
}.

Definition name (p : path) : string := (stem p +:+ suffix p)%string.

(** [path.with_stem(s)] *)
Definition with_stem (p : path) (s : string) : path := Path s (suffix p).

Definition FILES : list path :=
  [Path "IOS_Tenant_Targets" ".csv";
   Path "IOS_Tenant_Targets_Wth_Coords" ".csv"].

Definition COLUMNS_TO_DROP : list pyval :=
  [PStr (lit "Ownership"); PStr (lit "Contact"); PStr (lit "Phone");
   PStr (lit "Email"); PStr (lit "Notes")].

(** The cells of one row that stay when the columns labelled in [labels]
    go. *)
Fixpoint drop_cells (labels cols : list pyval) (row : list pyval)
  : list pyval :=
  match cols, row with
  | c :: cs, v :: vs =>
      if decide (c ∈ labels) then drop_cells labels cs vs
      else v :: drop_cells labels cs vs
  | _, _ => []
  end.

(** [df.drop(columns=labels)]: every column with one of the labels goes. *)
Definition drop (labels : list pyval) (df : frame) : frame :=
  Frame (filter (λ c, c ∉ labels) (columns df))
        (drop_cells labels (columns df) <$> rows df).

(** [clean_csv] on the frame read: the frame written and the number of
    columns it reports as removed. *)
Definition clean_csv (df : frame) : frame * nat :=
  let existing := filter (λ c, c ∈ columns df) COLUMNS_TO_DROP in
  (drop existing df, length existing).

Inductive notice :=
| Cleaning (file : string)
| Wrote (file : string) (removed : nat)
| Skipping (file : string).

(** [main]: the files of the directory, as the frames [read_csv] makes of
    them, and the console. *)
Definition main_step (st : gmap string frame * list notice) (p : path)
  : gmap string frame * list notice :=
  match st.1 !! name p with
  | None => (st.1, st.2 ++ [Skipping (name p)])
  | Some df =>
      let output_path := with_stem p (stem p +:+ "_cleaned")%string in
      let '(df, removed) := clean_csv df in
      (<[name output_path := df]> st.1,
       st.2 ++ [Cleaning (name p); Wrote (name output_path) removed])
  end.

Definition main (files : gmap string frame)
  : gmap string frame * list notice :=
  foldl main_step (files, []) FILES.

(** [row[label]] for a label that is any header cell. *)
Definition at_label (cols : list pyval) (label : pyval) (row : list pyval)
  : pyval :=
  match index_of label cols with
  | Some i => default PNaN (row !! i)
  | None => PNaN
  end.

(** The name a file is written under. *)
Definition cleaned (p : path) : string :=
  name (with_stem p (stem p +:+ "_cleaned")%string).

End Clean.

(** ** excel-to-map.py: the cache file, the map layers, and [main] *)

Module Report.
Import Text Pandas Simplify Enrich.

(** *** Measures of a batch *)

(** The queries of a batch that reach the cache: stripped, not blank. *)
Definition queries (df : list row) : gset str :=
  list_to_set (filter (λ q, q ≠ []) ((λ r, strip (full_address r)) <$> df)).

(** Those the cache does not hold yet. *)
Definition new_queries (df : list row) (cache : gmap str coords) : gset str :=
  queries df ∖ dom cache.

(** Both coordinates, or neither. *)
Definition paired (v : coords) : Prop := v.1 = None ↔ v.2 = None.

(** *** The cache seed

    A row of the coordinates file of an earlier run as [read_csv] returns
    it: the [full_address] cell, and the two coordinates as floats, NaN
    where the cell is empty. *)
Record cached_row := Cached {
  cached_address : pyval;
  cached_lat : float;
  cached_lon : float
}.

(** [dropna(subset=["lat", "lon"])] on such a row *)
Definition has_coords (c : cached_row) : bool :=
  negb (is_nan (cached_lat c)) && negb (is_nan (cached_lon c)).

(** The dict comprehension of [main]: a later row replaces an earlier one
    with the same key. *)
Definition seed_cache (df_cached : list cached_row) : gmap str coords :=
  foldl (λ m c, <[strip (py_str (cached_address c))
                  := (Some (cached_lat c), Some (cached_lon c))]> m)
        ∅ (List.filter has_coords df_cached).

(** *** [build_map]

    The layers of the map: one [FeatureGroup] per tenant, in the order of
    [sorted(df["Tenant"].unique())], with one marker per row of the tenant.
    [folium.Map] and [folium.Marker] validate the location they are given
    and raise [ValueError] when a coordinate is NaN or no number, so
    [build_map] returns only when the two means are numbers and every row
    has its coordinates; [None] stands for the exception.  The rendering
    is left out. *)

(** [a <= b] on [str]: code point by code point, a proper prefix first. *)
Fixpoint str_leb (a b : str) : bool :=
  match a, b with
  | [], _ => true
  | _ :: _, [] => false
  | x :: a', y :: b' => (x <? y) || ((x =? y) && str_leb a' b')
  end.

Definition str_le (a b : str) : Prop := str_leb a b = true.

#[global] Instance str_le_dec a b : Decision (str_le a b).
Proof. unfold str_le. apply _. Defined.

(** [Series.unique()]: the values in order of first appearance. *)
Fixpoint unique (seen : list str) (l : list str) : list str :=
  match l with
  | [] => []
  | x :: l' =>
      if decide (x ∈ seen) then unique seen l' else x :: unique (x :: seen) l'
  end.

Definition color_cycle : list string :=
  ["red"; "blue"; "green"; "purple"; "orange";
   "darkred"; "lightred"; "beige"; "darkblue";
   "darkgreen"; "cadetblue"; "darkpurple"; "white";
   "pink"; "lightblue"; "lightgreen"; "gray";
   "black"; "lightgray"]%string.

Definition tenants (df : list enriched) : list str :=
  merge_sort str_le (unique [] ((λ e, Tenant (base e)) <$> df)).

(** [{tenant: color_cycle[i % len(color_cycle)] for i, tenant in
    enumerate(tenants)}], from index [i] on *)
Fixpoint color_map_from (i : nat) (ts : list str) : gmap str string :=
  match ts with
  | [] => ∅
  | t :: ts' =>
      color_map_from (S i) ts'
      ∪ {[ t := default ""%string (color_cycle !! (i mod length color_cycle)%nat) ]}
  end.

Definition color_map (ts : list str) : gmap str string := color_map_from 0 ts.

Record marker := Marker {
  location : option float * option float;
  popup : str;
  tooltip : str;
  icon_color : option string       (* [color_map[tenant]] *)
}.

Record layer := Layer {
  layer_name : str;
  markers : list marker
}.

Definition popup_html (r : row) : str :=
  lit "<b>Tenant:</b> " ++ Tenant r ++ lit "<br>"
  ++ lit "<b>Address:</b> " ++ Address r ++ lit ", " ++ City r ++ lit ", "
  ++ State r.

Definition marker_of (colors : gmap str string) (tenant : str) (e : enriched)
  : marker :=
  Marker (lat e, lon e) (popup_html (base e)) (Tenant (base e))
         (colors !! tenant).

Section Map.
(** [Series.mean] of a column of coordinates *)
Variable mean : list (option float) → float.

Definition build_map (df : list enriched) : option (list layer) :=
  let center_lat := mean (lat <$> df) in
  let center_lon := mean (lon <$> df) in
  if is_nan center_lat || is_nan center_lon then None
  else
    let tenants := tenants df in
    let color_map := color_map tenants in
    if forallb is_resolved df
    then Some ((λ tenant,
                  Layer tenant
                        (marker_of color_map tenant
                           <$> filter (λ e, Tenant (base e) = tenant) df))
                 <$> tenants)
    else None.

End Map.

(** A mean for the concrete runs below: the values that are there, added
    from the left, over their number. *)
Definition mean_from_left (l : list (option float)) : float :=
  let xs := omap id l in
  (foldl PrimFloat.add 0 xs / foldl (λ n _, n + 1) 0 xs)%float.

(** *** [main]

    [csv] is the frame read from [CSV_PATH]; [cached] is the content of the
    coordinates file of an earlier run when that file exists, can be read
    and has the columns [full_address], [lat] and [lon]. *)
Record map_run := MapRun {
  coords_csv : list enriched;              (* written to OUTPUT_CSV_WITH_COORDS *)
  failures : option (list enriched);       (* geocode_failures.csv *)
  map_layers : option (list layer);        (* index.html, if [build_map] returns *)
  final : gmap str coords * world
}.

Section Main.
Context `{UnicodeData}.
Variable provider : world → str → answer * Q.
Variable mean : list (option float) → float.

Definition main (csv : frame) (cached : option (list cached_row)) (w : world)
  : load_error + map_run :=
  match load_and_clean csv with
  | inl e => inl e
  | inr df =>
      let existing_cache := seed_cache <$> cached in
      let rep := geocode_addresses provider df existing_cache w in
      inr (MapRun (returned rep) (failures_csv rep)
                  (build_map mean (returned rep))
                  (state_after rep))
  end.

End Main.

(** Rows as [geocode_addresses] leaves them, for the concrete runs
    below. *)
Definition pin (tenant city : string) (la lo : option float) : enriched :=
  Enriched (Row (lit tenant) (lit "DC") (lit "1 Main St") (lit city)
                (lit "FL") (lit "1 Main St")
                (lit "1 Main St, " ++ lit city ++ lit ", FL, USA"))
           la lo.

Definition placed : list enriched :=
  [pin "Beta" "Tampa" (Some 27.5%float) (Some (-82.5)%float);
   pin "Acme" "Miami" (Some 25.75%float) (Some (-80.25)%float);
   pin "Beta" "Ocala" (Some 29.25%float) (Some (-82.125)%float)].

End Report.

(** ** Shapes of text

    Notions the properties of the text functions are stated with. *)

Module Shape.
Import Text.

(** What [str.split] returns: runs that are not empty and hold no
    whitespace. *)
Definition word (t : str) : Prop :=
  t ≠ [] ∧ Forall (λ c, isspace c = false) t.

Definition is_ascii (s : str) : Prop := Forall (λ c, c < 128) s.

Definition starts_blank (s : str) : bool :=
  match s with
  | c :: _ => isspace c
  | [] => false
  end.

(** No two whitespace characters side by side. *)
Fixpoint single_spaced (s : str) : bool :=
  match s with
  | c :: t => negb (isspace c && starts_blank t) && single_spaced t
  | [] => true
  end.

End Shape.

(** ** The UTF-8 encoder

    [str.encode("utf8")], the inverse of the decoder [fix_encoding] calls:
    text whose UTF-8 bytes were read as Latin-1 is the text [fix_encoding]
    is written to repair. *)

Module Codec.
Import Text.

Definition utf8_char (c : N) : list N :=
  if c <? 128 then [c]
  else if c <? 2048 then [192 + c / 64; 128 + c mod 64]
  else if c <? 65536 then
    [224 + c / 4096; 128 + (c / 64) mod 64; 128 + c mod 64]
  else
    [240 + c / 262144; 128 + (c / 4096) mod 64; 128 + (c / 64) mod 64;
     128 + c mod 64].

Definition encode_utf8 (s : str) : list N := s ≫= utf8_char.

(** The code points that can be encoded: no surrogate, nothing above
    U+10FFFF. *)
Definition scalar (c : N) : Prop := c < 55296 ∨ (57343 < c ∧ c < 1114112).

End Codec.

(** * Properties *)

(** ** The geocode cache and client *)

Module EnrichFacts.
Import Text Pandas Simplify Enrich.

Lemma lstrip_spaces (s : str) : forallb isspace s = true → lstrip s = [].
Proof.
  induction s as [|c t IH]; simpl; [done|].
  intros [Hc Ht]%andb_true_iff. rewrite Hc. auto.
Qed.

Lemma strip_spaces (s : str) : forallb isspace s = true → strip s = [].
Proof. intros Hs. unfold strip. by rewrite lstrip_spaces. Qed.

(** After the sleep of [_acquire_request_slot], the next look at the clock
    finds nothing left to wait for. *)
Lemma acquire_second_look (w : world) (t : Q) :
  let wait := (min_delay_seconds - (clock w - t))%Q in
  Qle_bool (min_delay_seconds - (clock (sleep wait w) - t))%Q 0%Q = true.
Proof.
  intros wait. apply Qle_bool_iff. unfold wait, sleep; simpl.
  assert (E : (min_delay_seconds
               - (clock w + (min_delay_seconds - (clock w - t)) - t) == 0)%Q)
    by ring.
  rewrite E. apply Qle_refl.
Qed.

Section Client.
Variable provider : world → str → answer * Q.

#[local] Abbreviation geocode_one := (Enrich.geocode_one provider).
#[local] Abbreviation geocode_rows := (Enrich.geocode_rows provider).
#[local] Abbreviation geocode_addresses := (Enrich.geocode_addresses provider).

Lemma geocode_one_hit addr st result :
  strip addr ≠ [] → st.1 !! strip addr = Some result →
  geocode_one addr st = (result, st).
Proof.
  intros Hne Hhit. unfold Enrich.geocode_one.
  destruct (strip addr) as [|c t] eqn:E; [done|]. by rewrite Hhit.
Qed.

Lemma geocode_one_miss addr st :
  strip addr ≠ [] → st.1 !! strip addr = None →
  ∃ result w,
    geocode_one addr st = (result, (<[strip addr := result]> st.1, w)).
Proof.
  intros Hne Hmiss. unfold Enrich.geocode_one.
  destruct (strip addr) as [|c t] eqn:E; [done|]. rewrite Hmiss.
  destruct (geocode provider (c :: t) st.2) as [r w]. eauto.
Qed.

(** An entry of the cache is never overwritten or removed. *)
Lemma geocode_one_keeps addr st k v :
  st.1 !! k = Some v → (geocode_one addr st).2.1 !! k = Some v.
Proof.
  intros Hk. unfold Enrich.geocode_one.
  destruct (strip addr) as [|c t] eqn:E; [done|].
  destruct (st.1 !! (c :: t)) as [r|] eqn:L; [by simpl|].
  destruct (geocode provider (c :: t) st.2) as [r w]. simpl.
  rewrite lookup_insert_ne; [done|]. intros <-. congruence.
Qed.

Lemma geocode_rows_keeps df st k v :
  st.1 !! k = Some v → (geocode_rows df st).2.1 !! k = Some v.
Proof.
  revert st. induction df as [|r rs IH]; intros st Hk; simpl; [done|].
  pose proof (geocode_one_keeps (full_address r) st k v Hk) as H1.
  destruct (geocode_one (full_address r) st) as [[la lo] st1].
  specialize (IH st1 H1).
  destruct (geocode_rows rs st1) as [es st2]. done.
Qed.

Lemma geocode_rows_app df1 df2 st :
  geocode_rows (df1 ++ df2) st =
  let '(es1, st1) := geocode_rows df1 st in
  let '(es2, st2) := geocode_rows df2 st1 in
  (es1 ++ es2, st2).
Proof.
  revert st. induction df1 as [|r rs IH]; intros st; simpl.
  - by destruct (geocode_rows df2 st).
  - destruct (geocode_one (full_address r) st) as [[la lo] st1].
    rewrite IH. destruct (geocode_rows rs st1) as [es1 st2].
    by destruct (geocode_rows df2 st2).
Qed.

(** After a query was resolved, its result is in the cache. *)
Lemma geocode_one_cached addr st :
  strip addr ≠ [] →
  (geocode_one addr st).2.1 !! strip addr = Some (geocode_one addr st).1.
Proof.
  intros Hne. destruct (st.1 !! strip addr) as [r|] eqn:L.
  - by rewrite (geocode_one_hit addr st r).
  - destruct (geocode_one_miss addr st Hne L) as (r & w & ->). simpl.
    apply lookup_insert_eq.
Qed.

Lemma resolved_not_failed (e : enriched) : is_resolved e = negb (is_failed e).
Proof. unfold is_resolved, is_failed. by rewrite negb_orb. Qed.

Lemma split_by_failure (l : list enriched) :
  List.filter is_resolved l ++ List.filter is_failed l ≡ₚ l.
Proof.
  induction l as [|e l IH]; simpl; [done|].
  rewrite resolved_not_failed. destruct (is_failed e); simpl.
  - by rewrite <- Permutation_middle, IH.
  - by rewrite IH.
Qed.

Lemma geocode_rows_base df st : base <$> (geocode_rows df st).1 = df.
Proof.
  revert st. induction df as [|r rs IH]; intros st; simpl; [done|].
  destruct (geocode_one (full_address r) st) as [[la lo] st1].
  specialize (IH st1). destruct (geocode_rows rs st1) as [es st2].
  simpl in *. by f_equal.
Qed.

Lemma geocode_addresses_unfold df existing w :
  let all := (geocode_rows df (default ∅ existing, w)).1 in
  with_coords (geocode_addresses df existing w) = all
  ∧ returned (geocode_addresses df existing w) = List.filter is_resolved all
  ∧ failures_csv (geocode_addresses df existing w) =
      match List.filter is_failed all with
      | [] => None
      | f => Some f
      end.
Proof.
  unfold Enrich.geocode_addresses.
  destruct (geocode_rows df (default ∅ existing, w)) as [all st]. simpl.
  by destruct (List.filter is_failed all).
Qed.

(** C1: once a non-empty query has been resolved against the cache, its
    result is in the cache (a miss, whatever the provider did, inserts it),
    and resolving the same query again, at once or after any further rows
    of the batch, returns that result and leaves the cache and the world
    as they are: no request is sent. *)
Theorem repeat_query_served_from_cache addr st :
  strip addr ≠ [] →
  let '(result, st1) := geocode_one addr st in
  geocode_one addr st1 = (result, st1)
  ∧ st1.1 !! strip addr = Some result
  ∧ (st.1 !! strip addr = None → st1.1 = <[strip addr := result]> st.1)
  ∧ ∀ df addr', strip addr' = strip addr →
      let st2 := (geocode_rows df st1).2 in
      geocode_one addr' st2 = (result, st2).
Proof.
  intros Hne. pose proof (geocode_one_cached addr st Hne) as Hc.
  assert (Hm : st.1 !! strip addr = None →
               (geocode_one addr st).2.1
               = <[strip addr := (geocode_one addr st).1]> st.1).
  { intros L. by destruct (geocode_one_miss addr st Hne L) as (r & w & ->). }
  destruct (geocode_one addr st) as [result st1]. simpl in *.
  split_and!; [by apply geocode_one_hit | done | done |].
  intros df addr' E. apply geocode_one_hit; rewrite E; [done|].
  by apply geocode_rows_keeps.
Qed.

(** C4: an empty or whitespace-only query resolves to absent coordinates
    whatever the cache holds, and leaves the cache and the world unchanged:
    nothing is looked up, requested or inserted. *)
Theorem blank_query_resolves_absent addr st :
  forallb isspace addr = true →
  geocode_one addr st = ((None, None), st).
Proof.
  intros Hs. unfold Enrich.geocode_one. by rewrite (strip_spaces addr Hs).
Qed.

(** C2: every input row yields exactly one enriched row, in order; a row
    is resolved (both coordinates present) or failed (a coordinate absent)
    and never both; the two sets together are the batch, and their sizes
    add up to the input count. *)
Theorem partition_complete df existing w :
  let rep := geocode_addresses df existing w in
  let failed := List.filter is_failed (with_coords rep) in
  base <$> with_coords rep = df
  ∧ returned rep = List.filter is_resolved (with_coords rep)
  ∧ failures_csv rep = match failed with [] => None | _ => Some failed end
  ∧ (∀ e, is_resolved e = negb (is_failed e))
  ∧ returned rep ++ failed ≡ₚ with_coords rep
  ∧ (length (returned rep) + length failed = length df)%nat.
Proof.
  intros rep failed. subst rep failed.
  destruct (geocode_addresses_unfold df existing w) as (-> & -> & ->).
  pose proof (geocode_rows_base df (default ∅ existing, w)) as Hb.
  pose proof (split_by_failure (geocode_rows df (default ∅ existing, w)).1) as Hp.
  split_and!; auto using resolved_not_failed.
  - by destruct (List.filter is_failed _).
  - rewrite <- length_app, Hp, <- (length_fmap base). by rewrite Hb.
Qed.

(** C10: [geocode_failures.csv] is written exactly when some row of the
    batch has an absent coordinate, and then it holds those rows; when
    every row resolves no file is written. *)
Theorem failures_file_only_on_failure df existing w :
  let rep := geocode_addresses df existing w in
  (failures_csv rep = None ↔ Forall (λ e, is_resolved e = true) (with_coords rep))
  ∧ ∀ f, failures_csv rep = Some f →
         f ≠ [] ∧ f = List.filter is_failed (with_coords rep).
Proof.
  intros rep. subst rep.
  destruct (geocode_addresses_unfold df existing w) as (-> & _ & ->).
  set (all := (geocode_rows df (default ∅ existing, w)).1). clearbody all.
  split.
  - rewrite Forall_forall.
    destruct (List.filter is_failed all) as [|e f] eqn:E.
    + split; [|done]. intros _ x Hx%list_elem_of_In.
      rewrite resolved_not_failed. destruct (is_failed x) eqn:Fx; [|done].
      assert (In x (List.filter is_failed all)) as Hin
        by (apply filter_In; auto).
      rewrite E in Hin. destruct Hin.
    + split; [done|]. intros Hall.
      assert (In e (List.filter is_failed all)) as [Hin Hf]%filter_In
        by (rewrite E; by left).
      apply list_elem_of_In, Hall in Hin.
      rewrite resolved_not_failed, Hf in Hin. done.
  - intros f. destruct (List.filter is_failed all); [done|].
    intros [= <-]. done.
Qed.

(** *** Retries *)

Lemma filter_reverse_length {A} (f : A → bool) (l : list A) :
  length (List.filter f (reverse l)) = length (List.filter f l).
Proof.
  induction l as [|x l IH]; [done|].
  rewrite reverse_cons, List.filter_app, length_app, IH. simpl.
  destruct (f x); simpl; lia.
Qed.

Lemma slot_wait_reverse slot : slot_wait slot → reverse slot = slot.
Proof. by intros []. Qed.

Lemma slot_wait_no_request slot :
  slot_wait slot →
  List.filter (λ e, match e with Request _ _ => true | Sleep _ => false end) slot = [].
Proof. by intros []. Qed.

Lemma acquire_request_slot_trace w :
  ∃ slot, slot_wait slot ∧ trace (acquire_request_slot w) = slot ++ trace w.
Proof.
  unfold acquire_request_slot. destruct (last_call w) as [t|].
  - destruct (Qle_bool _ _); simpl.
    + exists []. split; [constructor | done].
    + eexists [Sleep _]. split; [constructor | done].
  - exists []. split; [constructor | done].
Qed.

Lemma attempts_requests q evs n a :
  attempts q evs n a →
  length (List.filter (λ e, match e with Request _ _ => true | Sleep _ => false end) evs) = n.
Proof.
  induction 1 as [slot a Hs | slot e rest n a Hs He _ IH];
    rewrite List.filter_app, (slot_wait_no_request _ Hs); simpl; [done|].
  by rewrite IH.
Qed.

Lemma rate_limited_attempts n q w :
  ∃ evs k a,
    trace (rate_limited provider n q w).2 = reverse evs ++ trace w
    ∧ attempts q evs k a
    ∧ (k ≤ S n)%nat
    ∧ (retried_error a = true → k = S n)
    ∧ (rate_limited provider n q w).1 = reply_of a.
Proof.
  revert w. induction n as [|n IH]; intros w; simpl;
    destruct (acquire_request_slot_trace w) as (slot & Hs & Ht);
    unfold call_provider;
    destruct (provider (acquire_request_slot w) q) as [a took] eqn:Ea.
  - exists (slot ++ [Request q a]), 1%nat, a.
    rewrite reverse_app, (slot_wait_reverse _ Hs).
    assert (attempts q (slot ++ [Request q a]) 1 a) by by constructor.
    destruct a as [la lo| |e]; simpl; rewrite ?Ht;
      [by split_and!..|].
    destruct (retried e) eqn:Re; simpl; rewrite ?Ht, ?Re; by split_and!.
  - destruct a as [la lo| |e].
    1,2: eexists (slot ++ [Request q _]), 1%nat, _;
      rewrite reverse_app, (slot_wait_reverse _ Hs); simpl; rewrite Ht;
      split_and!; [done | by constructor | lia | done | done].
    destruct (retried e) eqn:Re.
    + set (w1 := sleep error_wait_seconds _).
      destruct (IH w1) as (evs & k & a & Htr & Hat & Hk & Hex & Hr).
      exists (slot ++ Request q (Raises e) :: Sleep error_wait_seconds :: evs),
        (S k), a.
      split_and!; [| by constructor | lia | intros ?; f_equal; auto | done].
      rewrite Htr. subst w1. simpl. rewrite Ht.
      rewrite reverse_app, (slot_wait_reverse _ Hs), !reverse_cons.
      by rewrite <- !app_assoc.
    + exists (slot ++ [Request q (Raises e)]), 1%nat, (Raises e).
      rewrite reverse_app, (slot_wait_reverse _ Hs); simpl; rewrite Ht, Re.
      split_and!; [done | by constructor | lia | done | done].
Qed.

(** C3 (amended): a cache miss on a non-empty query makes at most four
    requests, the first and [max_retries = 3] retries.  A request is
    followed by another one only when it raised an error of the service
    (unavailable, timed out), and then after a sleep of
    [error_wait_seconds = 5]; such an error ends the query only when all
    four requests are used up.  The coordinates returned are those of the
    last answer when it is a location, and absent otherwise: no match, the
    last error of the service, or any other exception. *)
Theorem retry_policy addr st :
  strip addr ≠ [] → st.1 !! strip addr = None →
  let '(result, st1) := geocode_one addr st in
  ∃ evs n a,
    trace st1.2 = reverse evs ++ trace st.2
    ∧ attempts (strip addr) evs n a
    ∧ requests st1.2 = (requests st.2 + n)%nat
    ∧ (n ≤ max_retries + 1)%nat
    ∧ (retried_error a = true → n = (max_retries + 1)%nat)
    ∧ result = answer_coords a.
Proof.
  intros Hne Hmiss. unfold Enrich.geocode_one, geocode.
  destruct (strip addr) as [|c t] eqn:E; [done|]. rewrite Hmiss.
  destruct (rate_limited_attempts max_retries (c :: t) st.2)
    as (evs & n & a & Htr & Hat & Hn & Hex & Hr).
  destruct (rate_limited provider max_retries (c :: t) st.2) as [r w].
  simpl in *. exists evs, n, a. unfold max_retries in *.
  split_and!; [done | done | | lia | intros ?; rewrite Hex; [lia | done] |].
  - unfold requests. rewrite Htr, List.filter_app, length_app.
    rewrite filter_reverse_length, (attempts_requests _ _ _ _ Hat). lia.
  - subst r. destruct a as [la lo| |e]; simpl; [done..|].
    by destruct (retried e).
Qed.

End Client.
(** *** Concrete runs *)

Lemma repeat_query_served_from_cache_witness :
  let '(result, st1) := geocode_one flaky_provider tampa fresh in
  geocode_one flaky_provider tampa st1 = (result, st1)
  ∧ st1.1 !! strip tampa = Some result
  ∧ (fresh.1 !! strip tampa = None → st1.1 = <[strip tampa := result]> fresh.1)
  ∧ ∀ df addr', strip addr' = strip tampa →
      let st2 := (geocode_rows flaky_provider df st1).2 in
      geocode_one flaky_provider addr' st2 = (result, st2).
Proof.
  apply (repeat_query_served_from_cache flaky_provider tampa fresh).
  vm_compute. discriminate.
Defined.

Lemma blank_query_resolves_absent_witness :
  geocode_one flaky_provider (lit "   ") fresh = ((None, None), fresh).
Proof.
  apply (blank_query_resolves_absent flaky_provider (lit "   ") fresh).
  reflexivity.
Defined.

Lemma retry_policy_witness :
  let '(result, st1) := geocode_one flaky_provider tampa fresh in
  ∃ evs n a,
    trace st1.2 = reverse evs ++ trace fresh.2
    ∧ attempts (strip tampa) evs n a
    ∧ requests st1.2 = (requests fresh.2 + n)%nat
    ∧ (n ≤ max_retries + 1)%nat
    ∧ (retried_error a = true → n = (max_retries + 1)%nat)
    ∧ result = answer_coords a.
Proof.
  apply (retry_policy flaky_provider tampa fresh).
  - vm_compute. discriminate.
  - reflexivity.
Defined.

(** C3 as stated fails: with a provider that is unavailable three times
    and then answers, one query makes four requests, not at most three,
    and it resolves. *)
Lemma retry_ceiling_is_not_three :
  ¬ (∀ provider addr st,
       (requests (geocode_one provider addr st).2.2 ≤ requests st.2 + 3)%nat).
Proof.
  intros Hmax. specialize (Hmax flaky_provider tampa fresh).
  vm_compute in Hmax. lia.
Qed.

Example flaky_query_resolves :
  (geocode_one flaky_provider tampa fresh).1 = (Some 27.5%float, Some (-82.5)%float)
  ∧ requests (geocode_one flaky_provider tampa fresh).2.2 = 4%nat.
Proof. by vm_compute. Qed.

End EnrichFacts.


(** ** De-duplication *)

Module DedupeFacts.
Import Text Re Pandas Dedupe.

Section Rows.
Context {A : Type} (key : A → str).


Lemma drop_duplicates_fresh seen (l : list A) r :
  r ∈ drop_duplicates key seen l → key r ∉ seen.
Proof.
  revert seen. induction l as [|x rs IH]; intros seen; simpl.
  - by intros ?%elem_of_nil.
  - case_decide as Hx; [by apply IH|].
    intros [->|Hin%IH]%elem_of_cons; [done | set_solver].
Qed.

Lemma drop_duplicates_NoDup seen (l : list A) :
  NoDup (key <$> drop_duplicates key seen l).
Proof.
  revert seen. induction l as [|x rs IH]; intros seen; simpl.
  - constructor.
  - case_decide as Hx; [by apply IH|]. rewrite fmap_cons.
    constructor; [|by apply IH].
    intros (r & E & Hr%drop_duplicates_fresh)%list_elem_of_fmap.
    set_solver.
Qed.


End Rows.

Section Run.
Context `{UnicodeData}.


(** [re.sub(r"[^\w\s]", "", s)] keeps the word characters and the
    whitespace. *)
Lemma sub_punct pv s :
  sub_from punct_re [] 0 pv s = List.filter (λ c, isword c || isspace c) s.
Proof.
  revert pv. induction s as [|c t IH]; intros pv; [done|].
  cbn [sub_from List.filter]. unfold match_at, punct_re. cbn [run].
  destruct (isword c || isspace c); cbn [negb].
  - f_equal. apply IH.
  - unfold accept at 1. cbn [app].
    replace (length (c :: t) - length t - 1)%nat with 0%nat
      by (cbn [length]; lia).
    apply IH.
Qed.




(** C8: when Address or State is not among the (trimmed) column names,
    [main] prints the list of the columns that are there, ends with a
    [ValueError] naming the missing ones, and writes no file. *)
Theorem missing_column_aborts (df : frame) :
  let cols := strip_name <$> columns df in
  PStr (lit "Address") ∉ cols ∨ PStr (lit "State") ∉ cols →
  ∃ missing,
    missing ≠ []
    ∧ (∀ c, c ∈ missing ↔ c ∈ required ∧ c ∉ cols)
    ∧ main (Some df) =
      Outcome [AvailableColumns cols] (Some (ValueError_missing missing)) None.
Proof.
  intros cols Hmiss. unfold main. fold cols.
  assert (Hspec : ∀ c, c ∈ filter (λ c, c ∉ cols) required
                       ↔ c ∈ required ∧ c ∉ cols).
  { intros c. rewrite list_elem_of_filter. tauto. }
  destruct (filter (λ c, c ∉ cols) required) as [|m ms] eqn:E.
  - exfalso. destruct Hmiss as [Hm|Hm].
    + eapply elem_of_nil, Hspec. split; [|exact Hm]. apply elem_of_cons; auto.
    + eapply elem_of_nil, Hspec. split; [|exact Hm].
      apply elem_of_cons; right. apply elem_of_cons; auto.
  - exists (m :: ms). by split_and!.
Qed.



(** C6 at its failing inputs: the underscore is neither alphanumeric nor
    whitespace and survives ([\w] contains it); and a blank that stood
    before removed punctuation stays at the end, because the text is
    trimmed before the punctuation is removed. *)
Theorem normalize_text_leaves_underscore :
  normalize_text (PStr (lit "a_b")) = lit "a_b"
  ∧ punctuation 95 = true
  ∧ normalize_text (PStr (lit "a !")) = lit "a ".
Proof. by vm_compute. Qed.

End Run.

(** *** Concrete runs *)

Lemma missing_column_aborts_witness :
  let cols := strip_name <$> columns no_state_column in
  ∃ missing,
    missing ≠ []
    ∧ (∀ c, c ∈ missing ↔ c ∈ required ∧ c ∉ cols)
    ∧ @main latin1_only (Some no_state_column) =
      Outcome [AvailableColumns cols] (Some (ValueError_missing missing)) None.
Proof.
  apply (@missing_column_aborts latin1_only no_state_column).
  right. apply (bool_decide_unpack _). by vm_compute.
Defined.



(** Two names that are Address once trimmed: the run ends with
    [ValueError] and nothing is printed or written. *)
Example duplicated_address_raises :
  @main latin1_only
    (Some (Frame [PStr (lit "Address"); PStr (lit " Address ");
                  PStr (lit "State")]
                 [[PStr (lit "1 Main St"); PStr (lit "1 Main St");
                   PStr (lit "FL")]]))
  = Outcome [] (Some ValueError_duplicate_labels) None.
Proof. by vm_compute. Qed.

(** A missing cell is NaN, not [None], and takes the [str] branch. *)
Example missing_cell_normalizes_to_nan :
  @normalize_text latin1_only PNone = []
  ∧ @normalize_text latin1_only PNaN = lit "nan".
Proof. by vm_compute. Qed.

Example trailing_punctuation_kept_apart :
  @normalize_text latin1_only (PStr (lit "1 Main St -")) = lit "1 main st "
  ∧ @normalize_text latin1_only (PStr (lit "1 Main St ")) = lit "1 main st".
Proof. by vm_compute. Qed.

End DedupeFacts.

(** ** Address simplification *)

Module SimplifyFacts.
Import Text Re Simplify.

Lemma ci_cases p c :
  ci p c = true →
  c = p ∨ c = p - 32 ∨ (p = 115 ∧ c = 383)
  ∨ (p = 105 ∧ (c = 304 ∨ c = 305)) ∨ (p = 107 ∧ c = 8490).
Proof.
  unfold ci. rewrite !orb_true_iff, !andb_true_iff, !orb_true_iff, !N.eqb_eq.
  tauto.
Qed.

(** No keyword begins with a letter that whitespace or a comma matches. *)
Lemma first_letter_strict p c :
  p ∈ [115; 117; 98] → isspace c = true ∨ c = 44 → ci p c = false.
Proof.
  intros Hp Hc. destruct (ci p c) eqn:E; [exfalso|done].
  apply ci_cases in E. rewrite !elem_of_cons, elem_of_nil in Hp.
  destruct Hp as [->|[->|[->|[]]]];
    destruct E as [->|[->|[[_ ->]|[[_ [->| ->]]|[_ ->]]]]];
    by destruct Hc as [Hc|Hc]; vm_compute in Hc.
Qed.

Lemma lstrip_app_barrier s rest :
  barrier rest → lstrip (s ++ rest) = lstrip s ++ rest.
Proof.
  intros Hb. induction s as [|c t IH]; simpl.
  - by destruct Hb as [->|[t ->]].
  - by destruct (isspace c).
Qed.

Lemma lstrip_comma_free s : comma_free s → comma_free (lstrip s).
Proof.
  induction 1 as [|c t Hc Ht IH]; simpl; [constructor|].
  destruct (isspace c); [done | by constructor].
Qed.

Lemma ci_prefix_comma_free w s r :
  ci_prefix w s = Some r → comma_free s → comma_free r.
Proof.
  revert s. induction w as [|p w IH]; intros s; simpl.
  - by intros [= ->].
  - destruct s as [|c t]; [done|]. destruct (ci p c); [|done].
    intros E Hs. apply (IH t E). by inversion Hs.
Qed.

(** A keyword cannot reach over the comma that ends the piece. *)
Lemma ci_prefix_app w s rest :
  Forall (λ p, ci p 44 = false) w → w ≠ [] → barrier rest →
  ci_prefix w (s ++ rest) = (λ r, r ++ rest) <$> ci_prefix w s.
Proof.
  intros Hw Hne Hb. revert s Hne.
  induction Hw as [|p w Hp Hw IH]; intros s Hne; [done|].
  destruct s as [|c t]; simpl.
  - destruct Hb as [->|[t ->]]; simpl; [done | by rewrite Hp].
  - destruct (ci p c); [|done]. destruct w as [|p' w]; [done|].
    by apply IH.
Qed.

Section Engine.
Context `{UnicodeData}.

Lemma star_to_comma pv r rest :
  comma_free r → barrier rest →
  star (λ c, negb (comma c)) accept pv (r ++ rest) = Some rest.
Proof.
  intros Hr Hb. revert pv. induction Hr as [|c t Hc Ht IH]; intros pv; simpl.
  - by destruct Hb as [->|[t ->]].
  - unfold comma at 1. destruct (N.eqb_spec c 44) as [|_]; [done|]. simpl.
    by rewrite IH.
Qed.

(** [\b[^,]*] inside a piece: if it matches, it ends at the comma. *)
Lemma boundary_run pv r rest :
  comma_free r → barrier rest →
  run (Seq WordB (Star (λ c, negb (comma c)))) accept pv (r ++ rest)
  = if boundary pv (r ++ rest) then Some rest else None.
Proof. intros Hr Hb. cbn [run]. by rewrite star_to_comma. Qed.

(** [\b[^,]*] after a word character. *)
Lemma word_end_run pc r rest :
  isword pc = true → comma_free r → barrier rest →
  run (Seq WordB (Star (λ c, negb (comma c)))) accept (Some pc) (r ++ rest)
  = if match r with [] => true | c :: _ => negb (isword c) end
    then Some rest else None.
Proof.
  intros Hpc Hr Hb. rewrite boundary_run by done.
  unfold boundary. cbn [from_option]. rewrite Hpc.
  destruct r as [|c t]; simpl.
  - by destruct Hb as [->|[t ->]].
  - by destruct (isword c).
Qed.

(** The letters of a keyword, then [k]. *)
Lemma word_ci_run p w k pv s :
  run (word_ci (p :: w)) k pv s
  = match ci_prefix (p :: w) s with
    | Some r => k (s !! length w) r
    | None => None
    end.
Proof.
  revert p pv s. induction w as [|p' w IH]; intros p pv s.
  - simpl. destruct s as [|c t]; [done|]. by destruct (ci p c).
  - change (word_ci (p :: p' :: w)) with (Seq (Chr (ci p)) (word_ci (p' :: w))).
    cbn [run]. destruct s as [|c t]; [done|]. cbn [ci_prefix].
    destruct (ci p c); [|done]. by rewrite IH.
Qed.

Lemma ci_prefix_last p w s r :
  ci_prefix (p :: w) s = Some r →
  ∃ q c, last (p :: w) = Some q ∧ s !! length w = Some c ∧ ci q c = true.
Proof.
  revert p s. induction w as [|p' w IH]; intros p s; simpl.
  - destruct s as [|c t]; [done|]. destruct (ci p c) eqn:E; [|done]. eauto.
  - destruct s as [|c t]; [done|]. destruct (ci p c); [|done].
    intros E. destruct (IH p' t E) as (q & c' & Hq & Hc & Hl).
    exists q, c'. by split_and!.
Qed.

(** Every keyword ends with a letter that only word characters match. *)
Lemma last_letter_word p c :
  p ∈ [101; 116; 103] → ci p c = true → isword c = true.
Proof.
  intros Hp E. apply ci_cases in E. rewrite !elem_of_cons, elem_of_nil in Hp.
  destruct Hp as [->|[->|[->|[]]]];
    destruct E as [->|[->|[[[=] _]|[[[=] _]|[[=] _]]]]]; by vm_compute.
Qed.

(** One keyword, matched as a word and followed by the rest of the piece:
    the match ends at the comma that ends the piece. *)
Lemma keyword_run w pv s rest :
  w ∈ keywords → comma_free s → barrier rest →
  run (word_ci w) (run (Seq WordB (Star (λ c, negb (comma c)))) accept)
      pv (s ++ rest)
  = if keyword_at w s then Some rest else None.
Proof.
  intros Hw Hs Hb.
  assert (Hcomma : Forall (λ p, ci p 44 = false) w).
  { unfold keywords in Hw. rewrite !elem_of_cons, elem_of_nil in Hw.
    destruct Hw as [->|[->|[->|[->|[->|[]]]]]]; by repeat constructor. }
  assert (Hlast : ∃ q, last w = Some q ∧ q ∈ [101; 116; 103]).
  { unfold keywords in Hw. rewrite !elem_of_cons, elem_of_nil in Hw.
    destruct Hw as [->|[->|[->|[->|[->|[]]]]]]; eexists; (split; [reflexivity|]);
      rewrite !elem_of_cons; auto. }
  destruct w as [|p w]; [by destruct Hlast as (q & [=] & _)|].
  rewrite word_ci_run, ci_prefix_app by done. unfold keyword_at.
  destruct (ci_prefix (p :: w) s) as [r|] eqn:E; [|done].
  cbn [fmap option_fmap option_map].
  destruct (ci_prefix_last p w s r E) as (q & c & Hq & Hc & Hci).
  destruct Hlast as (q' & Hq' & Hin). rewrite Hq in Hq'. injection Hq' as <-.
  rewrite (lookup_app_l_Some _ _ _ _ Hc).
  rewrite word_end_run; eauto using last_letter_word, ci_prefix_comma_free.
Qed.

(** The same with an optional period after the keyword: the period is part
    of what [[^,]*] would take anyway, so nothing changes. *)
Lemma keyword_dot_run w pv s rest :
  w ∈ keywords → comma_free s → barrier rest →
  run (Seq (word_ci w) (Opt dot))
      (run (Seq WordB (Star (λ c, negb (comma c)))) accept) pv (s ++ rest)
  = if keyword_at w s then Some rest else None.
Proof.
  intros Hw Hs Hb.
  assert (Hcomma : Forall (λ p, ci p 44 = false) w).
  { unfold keywords in Hw. rewrite !elem_of_cons, elem_of_nil in Hw.
    destruct Hw as [->|[->|[->|[->|[->|[]]]]]]; by repeat constructor. }
  assert (Hlast : ∃ q, last w = Some q ∧ q ∈ [101; 116; 103]).
  { unfold keywords in Hw. rewrite !elem_of_cons, elem_of_nil in Hw.
    destruct Hw as [->|[->|[->|[->|[->|[]]]]]]; eexists; (split; [reflexivity|]);
      rewrite !elem_of_cons; auto. }
  destruct w as [|p w]; [by destruct Hlast as (q & [=] & _)|].
  set (K := run (Seq WordB (Star (λ c, negb (comma c)))) accept).
  change (run (Seq (word_ci (p :: w)) (Opt dot)) K pv (s ++ rest))
    with (run (word_ci (p :: w)) (run (Opt dot) K) pv (s ++ rest)).
  rewrite word_ci_run, ci_prefix_app by done. unfold keyword_at.
  destruct (ci_prefix (p :: w) s) as [r|] eqn:E; [|done].
  cbn [fmap option_fmap option_map].
  destruct (ci_prefix_last p w s r E) as (q & c & Hq & Hc & Hci).
  destruct Hlast as (q' & Hq' & Hin). rewrite Hq in Hq'. injection Hq' as <-.
  rewrite (lookup_app_l_Some _ _ _ _ Hc).
  pose proof (last_letter_word q c Hin Hci) as Hword.
  pose proof (ci_prefix_comma_free _ _ _ E Hs) as Hr.
  pose proof (word_end_run c r rest Hword Hr Hb) as Hplain. fold K in Hplain.
  destruct r as [|d r'].
  - change ([] ++ rest) with rest in *.
    destruct Hb as [->|[t ->]]; [exact Hplain|].
    cbn [run]. change (dot 44) with false. cbv iota. exact Hplain.
  - change ((d :: r') ++ rest) with (d :: r' ++ rest) in *.
    cbn [run]. unfold dot at 1.
    destruct (N.eqb_spec d 46) as [->|Hd]; [|exact Hplain].
    rewrite Hplain. change (negb (isword 46)) with true. cbv iota.
    unfold K. rewrite boundary_run by (by inversion Hr).
    by destruct (boundary _ _).
Qed.

Lemma run_alt a b k pv s :
  run (Alt a b) k pv s
  = match run a k pv s with Some r => Some r | None => run b k pv s end.
Proof. done. Qed.

Lemma run_seq a b k pv s : run (Seq a b) k pv s = run a (run b k) pv s.
Proof. done. Qed.

(** The five alternatives in their order come to the same as asking
    whether any keyword is there. *)
Lemma keyword_re_run pv s rest :
  comma_free s → barrier rest →
  run keyword_re (run (Seq WordB (Star (λ c, negb (comma c)))) accept)
      pv (s ++ rest)
  = if existsb (λ w, keyword_at w s) keywords then Some rest else None.
Proof.
  intros Hs Hb. unfold keyword_re. rewrite !run_alt.
  rewrite (keyword_run (lit "suite")), (keyword_dot_run (lit "ste")),
    (keyword_run (lit "unit")), (keyword_dot_run (lit "bldg")),
    (keyword_run (lit "building")); try done;
    try (unfold keywords; rewrite !elem_of_cons; tauto).
  unfold keywords, existsb.
  destruct (keyword_at (lit "suite") s), (keyword_at (lit "ste") s),
    (keyword_at (lit "unit") s), (keyword_at (lit "bldg") s),
    (keyword_at (lit "building") s); done.
Qed.

(** No alternative begins at a character that matches none of s, u, b, and
    none looks at the character before. *)
Lemma keyword_re_begin k pv s :
  run keyword_re k pv s
  = match s with
    | c :: _ =>
        if ci 115 c || ci 117 c || ci 98 c then run keyword_re k None s
        else None
    | [] => None
    end.
Proof.
  unfold keyword_re. rewrite !run_alt, !run_seq.
  change (lit "suite") with (115 :: lit "uite").
  change (lit "ste") with (115 :: lit "te").
  change (lit "unit") with (117 :: lit "nit").
  change (lit "bldg") with (98 :: lit "ldg").
  change (lit "building") with (98 :: lit "uilding").
  rewrite !word_ci_run. destruct s as [|c t]; [done|]. cbn [ci_prefix].
  destruct (ci 115 c), (ci 117 c), (ci 98 c); done.
Qed.

Lemma space_star_run k pv s :
  (∀ pv s, k pv s = k None s) →
  (∀ pv c t, isspace c = true → k pv (c :: t) = None) →
  star isspace k pv s = k None (lstrip s).
Proof.
  intros Hpv Hsp. revert pv. induction s as [|c t IH]; intros pv; simpl.
  - apply Hpv.
  - destruct (isspace c) eqn:E; [|apply Hpv].
    rewrite IH. destruct (k None (lstrip t)); [done|]. by apply Hsp.
Qed.

(** At a comma: the pattern matches exactly when the piece that follows is
    a suite fragment, and then it takes the piece whole. *)
Lemma suite_re_at_comma pv piece rest :
  comma_free piece → barrier rest →
  match_at suite_re pv (44 :: piece ++ rest)
  = if suite_fragment piece then Some rest else None.
Proof.
  intros Hs Hb. unfold match_at, suite_re.
  set (K := run (Seq WordB (Star (λ c, negb (comma c)))) accept).
  change (star isspace (run keyword_re K) (Some 44) (piece ++ rest)
          = if suite_fragment piece then Some rest else None).
  rewrite space_star_run.
  - rewrite lstrip_app_barrier by done. unfold K.
    rewrite keyword_re_run by auto using lstrip_comma_free. done.
  - intros pv' s. rewrite (keyword_re_begin K pv' s).
    destruct s as [|c t]; [by rewrite keyword_re_begin|].
    destruct (ci 115 c || ci 117 c || ci 98 c) eqn:E; [done|].
    by rewrite keyword_re_begin, E.
  - intros pv' c t Hc. rewrite keyword_re_begin.
    rewrite !first_letter_strict; auto; rewrite !elem_of_cons; auto.
Qed.

Lemma suite_re_elsewhere pv c t : c ≠ 44 → match_at suite_re pv (c :: t) = None.
Proof.
  intros Hc. unfold match_at, suite_re. cbn [run]. unfold comma.
  by destruct (N.eqb_spec c 44).
Qed.

Lemma suite_re_prev pv pv' s : match_at suite_re pv s = match_at suite_re pv' s.
Proof. by destruct s. Qed.

Lemma sub_suite_prev n pv pv' s :
  sub_from suite_re [] n pv s = sub_from suite_re [] n pv' s.
Proof.
  destruct s as [|c t]; [done|]. destruct n; [|done]. cbn [sub_from].
  by rewrite (suite_re_prev pv pv').
Qed.

(** Text without a comma is copied. *)
Lemma sub_suite_copy pv s rest :
  comma_free s →
  sub_from suite_re [] 0 pv (s ++ rest)
  = s ++ sub_from suite_re [] 0 None rest.
Proof.
  intros Hs. revert pv. induction Hs as [|c t Hc Ht IH]; intros pv.
  - apply sub_suite_prev.
  - cbn [app sub_from]. rewrite suite_re_elsewhere by done. by rewrite IH.
Qed.

(** A match is passed over. *)
Lemma sub_suite_skip pv s rest :
  sub_from suite_re [] (length s) pv (s ++ rest)
  = sub_from suite_re [] 0 None rest.
Proof.
  revert pv. induction s as [|c t IH]; intros pv; [apply sub_suite_prev|].
  cbn [app length sub_from]. apply IH.
Qed.

Lemma with_commas_barrier pieces : barrier (with_commas pieces).
Proof. destruct pieces; [by left | right; eexists; reflexivity]. Qed.

Lemma sub_suite_pieces pieces :
  Forall comma_free pieces →
  sub_from suite_re [] 0 None (with_commas pieces) = without_fragments pieces.
Proof.
  induction 1 as [|piece pieces Hp Hps IH]; [done|].
  change (with_commas (piece :: pieces))
    with (44 :: piece ++ with_commas pieces).
  change (without_fragments (piece :: pieces))
    with ((if suite_fragment piece then [] else 44 :: piece)
          ++ without_fragments pieces).
  cbn [sub_from].
  rewrite suite_re_at_comma by auto using with_commas_barrier.
  destruct (suite_fragment piece).
  - replace (_ - _ - 1)%nat with (length piece)
      by (cbn [length]; rewrite length_app; lia).
    by rewrite sub_suite_skip, IH.
  - by rewrite sub_suite_copy, IH.
Qed.

(** Every text is a first piece and further pieces after commas. *)
Lemma pieces_exist (s : str) :
  ∃ first pieces,
    comma_free first ∧ Forall comma_free pieces
    ∧ s = first ++ with_commas pieces.
Proof.
  induction s as [|c t (first & pieces & Hf & Hp & ->)].
  - exists [], []. by split_and!; try constructor.
  - destruct (decide (c = 44)) as [->|Hc].
    + exists [], (first :: pieces). by split_and!; try constructor.
    + exists (c :: first), pieces. by split_and!; try constructor.
Qed.

(** C7: in an address read as a first piece and further pieces, each
    after a comma, the pattern of [strip_suite] removes every piece that
    begins with Suite, Ste, Unit, Bldg or Building as a word (in any case,
    a period may follow), together with the comma before it and up to the
    next comma or the end, and copies every other piece; the later steps of
    [strip_suite] work on that text.  So "123 Main St, Suite 400, Tampa"
    becomes "123 Main St, Tampa". *)
Theorem suite_fragments_removed (addr first : str) (pieces : list str) :
  comma_free first → Forall comma_free pieces →
  fix_encoding addr = first ++ with_commas pieces →
  sub suite_re [] (first ++ with_commas pieces)
  = first ++ without_fragments pieces
  ∧ strip_suite addr
    = sub trailing_re []
        (strip (sub spaces_re (lit " ")
                  (sub hash_re [] (first ++ without_fragments pieces))))
  ∧ strip_suite (lit "123 Main St, Suite 400, Tampa")
    = lit "123 Main St, Tampa".
Proof.
  intros Hf Hp Ha.
  assert (E : sub suite_re [] (first ++ with_commas pieces)
              = first ++ without_fragments pieces).
  { unfold sub. by rewrite sub_suite_copy, sub_suite_pieces. }
  split_and!; [done | | by vm_compute].
  unfold strip_suite. by rewrite Ha, E.
Qed.

End Engine.

Lemma suite_fragments_removed_witness :
  let addr := lit "9 Oak Rd,  STE. 4 ,Bldg 7, Miami, Unit B" in
  let first := lit "9 Oak Rd" in
  let pieces := [lit " STE. 4 "; lit "Bldg 7"; lit " Miami"; lit " Unit B"] in
  @sub latin1_only suite_re [] (first ++ with_commas pieces)
  = first ++ @without_fragments latin1_only pieces
  ∧ @strip_suite latin1_only addr
    = @sub latin1_only (@trailing_re) []
        (strip (@sub latin1_only (@spaces_re) (lit " ")
                  (@sub latin1_only (@hash_re latin1_only) []
                        (first ++ @without_fragments latin1_only pieces))))
  ∧ @strip_suite latin1_only (lit "123 Main St, Suite 400, Tampa")
    = lit "123 Main St, Tampa".
Proof.
  apply (@suite_fragments_removed latin1_only).
  - vm_compute. by repeat constructor.
  - vm_compute. by repeat constructor.
  - by vm_compute.
Defined.

Example oak_road :
  @strip_suite latin1_only (lit "9 Oak Rd,  STE. 4 ,Bldg 7, Miami, Unit B")
  = lit "9 Oak Rd, Miami".
Proof. by vm_compute. Qed.

End SimplifyFacts.


(** ** The stored address through loading and geocoding *)

Module LoadFacts.
Import Text Pandas Simplify Enrich.

Section Pipeline.
Context `{UnicodeData}.
Variable provider : world → str → answer * Q.

Lemma load_and_clean_rows df rs :
  load_and_clean df = inr rs →
  ∃ first rest,
    rows df = first :: rest
    ∧ rs = clean_row (columns (fix_header df first rest))
             <$> rows (fix_header df first rest).
Proof.
  unfold load_and_clean. destruct (rows df) as [|first rest]; [done|].
  destruct (filter _ EXPECTED_COLS); [|done].
  destruct (existsb _ EXPECTED_COLS); [done|]. intros [= <-]. eauto.
Qed.

(** A first row that is taken for the header and names State twice: the
    loader ends with [AttributeError]. *)
Example duplicated_state_raises :
  let names := [PStr (lit "Tenant"); PStr (lit "Location");
                PStr (lit "Address"); PStr (lit "City"); PStr (lit "State");
                PStr (lit "State")] in
  @load_and_clean latin1_only (Frame names [names; names])
  = inl AttributeError.
Proof. by vm_compute. Qed.

Lemma filter_sublist {A} (f : A → bool) (l : list A) :
  List.filter f l `sublist_of` l.
Proof.
  induction l as [|x l IH]; simpl; [done|].
  destruct (f x); [by apply sublist_skip | by apply sublist_cons].
Qed.

(** C9 (amended): the Address stored for a record is the input cell as
    text, trimmed and passed through [fix_encoding]; the output of
    [strip_suite] goes to [clean_address] (and from there to
    [full_address]) and never into Address; geocoding changes no stored
    field, and the rows it returns or writes as failures are rows of that
    frame. *)
Theorem stored_address_not_simplified df rs existing w :
  load_and_clean df = inr rs →
  ∃ first rest,
    rows df = first :: rest
    ∧ let real := fix_header df first rest in
      let rep := geocode_addresses provider rs existing w in
      Forall2 (λ raw e,
                 Address (base e)
                 = fix_encoding (strip (py_str (cell (columns real) "Address" raw)))
                 ∧ clean_address (base e) = strip_suite (Address (base e)))
              (rows real) (with_coords rep)
      ∧ returned rep `sublist_of` with_coords rep
      ∧ ∀ f, failures_csv rep = Some f → f `sublist_of` with_coords rep.
Proof.
  intros (first & rest & Hrows & Hrs)%load_and_clean_rows.
  exists first, rest. split; [done|]. intros real rep. subst rep.
  destruct (EnrichFacts.geocode_addresses_unfold provider rs existing w)
    as (Hall & -> & ->).
  pose proof (EnrichFacts.geocode_rows_base provider rs
                (default ∅ existing, w)) as Hbase.
  rewrite Hall. set (all := (geocode_rows provider _ _).1) in *. clearbody all.
  fold real in Hrs. rewrite Hrs in Hbase. clear Hrs Hall.
  split_and!.
  - revert all Hbase. induction (rows real) as [|raw l IH]; intros all Hb.
    + destruct all; [constructor | done].
    + destruct all as [|e all]; [done|]. injection Hb as Hb1 Hb2.
      constructor; [by rewrite Hb1 | by apply IH].
  - apply filter_sublist.
  - intros f. destruct (List.filter is_failed all) eqn:E; [done|].
    intros [= <-]. rewrite <- E. apply filter_sublist.
Qed.

End Pipeline.

(** *** Concrete runs *)

Example one_tenant_loaded :
  @load_and_clean latin1_only one_tenant
  = inr [Row (lit "A") (lit "Tampa DC") (lit "1 Main St, Suite 5")
             (lit "Tampa") (lit "FL") (lit "1 Main St")
             (lit "1 Main St, Tampa, FL, USA")].
Proof. by vm_compute. Qed.

Lemma stored_address_not_simplified_witness :
  ∃ first rest,
    rows one_tenant = first :: rest
    ∧ let real := fix_header one_tenant first rest in
      let rep := geocode_addresses flaky_provider
                   [Row (lit "A") (lit "Tampa DC") (lit "1 Main St, Suite 5")
                        (lit "Tampa") (lit "FL") (lit "1 Main St")
                        (lit "1 Main St, Tampa, FL, USA")]
                   None (World 0%Q None []) in
      Forall2 (λ raw e,
                 Address (base e)
                 = fix_encoding (strip (py_str (cell (columns real) "Address" raw)))
                 ∧ clean_address (base e)
                   = @strip_suite latin1_only (Address (base e)))
              (rows real) (with_coords rep)
      ∧ returned rep `sublist_of` with_coords rep
      ∧ ∀ f, failures_csv rep = Some f → f `sublist_of` with_coords rep.
Proof.
  apply (@stored_address_not_simplified latin1_only flaky_provider one_tenant).
  by vm_compute.
Defined.

(** C9 as stated fails: the stored Address is not the input address
    unmodified; here the two blanks after the comma have become one. *)
Lemma stored_address_is_rewritten :
  ¬ (∀ (U : UnicodeData) df rs first rest,
       load_and_clean df = inr rs → rows df = first :: rest →
       Address <$> rs
       = (λ raw, py_str (cell (columns (fix_header df first rest)) "Address" raw))
           <$> rows (fix_header df first rest)).
Proof.
  intros Hall.
  specialize (Hall latin1_only one_tenant _ _ _ one_tenant_loaded eq_refl).
  by vm_compute in Hall.
Qed.

End LoadFacts.

(** ** Stripping and filtering *)

Module TextLemmas.
Import Text Shape.

Lemma lstrip_nil_spaces s : lstrip s = [] → Forall (λ c, isspace c = true) s.
Proof.
  induction s as [|c t IH]; simpl; [constructor|].
  destruct (isspace c) eqn:E; [|done]. intros Ht. constructor; auto.
Qed.

Lemma lstrip_head s c t : lstrip s = c :: t → isspace c = false.
Proof.
  induction s as [|x s IH]; simpl; [done|].
  destruct (isspace x) eqn:E; [done|]. by intros [= <- _].
Qed.

Lemma starts_blank_lstrip s : starts_blank (lstrip s) = false.
Proof.
  destruct (lstrip s) as [|c t] eqn:E; [done|]. simpl.
  by apply lstrip_head in E.
Qed.

Lemma lstrip_split s :
  ∃ sp, s = sp ++ lstrip s ∧ Forall (λ c, isspace c = true) sp.
Proof.
  induction s as [|c s (sp & E & Hsp)]; simpl; [by exists []|].
  destruct (isspace c) eqn:Ec; [|by exists []].
  exists (c :: sp). split; [by rewrite E at 1 | by constructor].
Qed.

Lemma rstrip_split s :
  ∃ sp, s = rstrip s ++ sp ∧ Forall (λ c, isspace c = true) sp.
Proof.
  unfold rstrip. destruct (lstrip_split (reverse s)) as (sp & E & Hsp).
  exists (reverse sp). split; [|by apply Forall_reverse].
  apply (f_equal reverse) in E.
  by rewrite reverse_involutive, reverse_app in E.
Qed.

Lemma lstrip_fixed s : starts_blank s = false → lstrip s = s.
Proof. destruct s as [|c t]; [done|]. simpl. by intros ->. Qed.

Lemma lstrip_idem s : lstrip (lstrip s) = lstrip s.
Proof. apply lstrip_fixed, starts_blank_lstrip. Qed.

Lemma rstrip_idem s : rstrip (rstrip s) = rstrip s.
Proof. unfold rstrip. by rewrite reverse_involutive, lstrip_idem. Qed.

(** Stripping the right end leaves the left end alone. *)
Lemma rstrip_head a c : head (rstrip a) = Some c → head a = Some c.
Proof.
  destruct (rstrip_split a) as (sp & E & _). rewrite E at 2.
  by destruct (rstrip a).
Qed.

Lemma rstrip_last s c : last (rstrip s) = Some c → isspace c = false.
Proof.
  unfold rstrip. rewrite last_reverse.
  destruct (lstrip (reverse s)) as [|x t] eqn:E; [done|].
  intros [= <-]. by apply lstrip_head in E.
Qed.

Lemma strip_head s c : head (strip s) = Some c → isspace c = false.
Proof.
  unfold strip. intros Hc%rstrip_head.
  destruct (lstrip s) as [|x t] eqn:E; [done|]. injection Hc as <-.
  by apply lstrip_head in E.
Qed.

Lemma strip_last s c : last (strip s) = Some c → isspace c = false.
Proof. apply rstrip_last. Qed.

Lemma starts_blank_strip s : starts_blank (strip s) = false.
Proof.
  destruct (strip s) as [|c t] eqn:E; [done|]. simpl.
  apply (strip_head s). by rewrite E.
Qed.

Lemma rstrip_fixed s :
  (∀ c, last s = Some c → isspace c = false) → rstrip s = s.
Proof.
  intros Hl. unfold rstrip. rewrite lstrip_fixed; [apply reverse_involutive|].
  destruct (reverse s) as [|c t] eqn:E; [done|]. simpl. apply Hl.
  by rewrite <- (reverse_involutive s), E, last_reverse.
Qed.

Lemma strip_fixed s :
  starts_blank s = false → (∀ c, last s = Some c → isspace c = false) →
  strip s = s.
Proof. intros Hh Hl. unfold strip. by rewrite lstrip_fixed, rstrip_fixed. Qed.

Lemma strip_idem s : strip (strip s) = strip s.
Proof. apply strip_fixed; [apply starts_blank_strip | apply strip_last]. Qed.

(** Only whitespace strips to nothing. *)
Lemma strip_nil_spaces s : strip s = [] → Forall (λ c, isspace c = true) s.
Proof.
  unfold strip. intros Hs.
  destruct (rstrip_split (lstrip s)) as (sp & E & Hsp).
  rewrite Hs in E. simpl in E.
  destruct (lstrip s) as [|c t] eqn:El; [by apply lstrip_nil_spaces|].
  apply lstrip_head in El. subst sp.
  apply Forall_cons in Hsp as [Hc _]. congruence.
Qed.

(** A part of single-spaced text is single-spaced. *)
Lemma single_spaced_app a b :
  single_spaced (a ++ b) = true →
  single_spaced a = true ∧ single_spaced b = true.
Proof.
  induction a as [|x a IH]; [done|]. cbn [app single_spaced].
  intros [Hx Hab]%andb_true_iff. destruct (IH Hab) as [Ha Hb].
  split; [|done]. rewrite Ha, andb_true_r.
  destruct a as [|y a]; [by rewrite andb_false_r|]. exact Hx.
Qed.

Lemma single_spaced_strip s :
  single_spaced s = true → single_spaced (strip s) = true.
Proof.
  intros Hs. unfold strip.
  destruct (lstrip_split s) as (sp & E & _).
  destruct (rstrip_split (lstrip s)) as (sp' & E' & _).
  rewrite E, E' in Hs.
  by apply single_spaced_app in Hs as [_ [Hs _]%single_spaced_app].
Qed.

Lemma list_filter_none {A} (f : A → bool) (l : list A) :
  (∀ x, x ∈ l → f x = false) → List.filter f l = [].
Proof.
  induction l as [|x l IH]; intros Hl; simpl; [done|].
  rewrite (Hl x) by left. apply IH. intros; apply Hl; by right.
Qed.

Lemma list_filter_every {A} (f : A → bool) (l : list A) :
  (∀ x, x ∈ l → f x = true) → List.filter f l = l.
Proof.
  induction l as [|x l IH]; intros Hl; simpl; [done|].
  rewrite (Hl x) by left. f_equal. apply IH. intros; apply Hl; by right.
Qed.

End TextLemmas.

(** ** clean_ios_csvs.py *)

Module CleanFacts.
Import Text Pandas Clean.

Lemma filter_existing (cols l : list pyval) :
  (∀ c, c ∈ l → c ∈ cols) →
  filter (λ c, c ∉ filter (λ c, c ∈ cols) COLUMNS_TO_DROP) l
  = filter (λ c, c ∉ COLUMNS_TO_DROP) l.
Proof.
  induction l as [|c l IH]; intros Hsub; [done|].
  assert (c ∈ filter (λ c, c ∈ cols) COLUMNS_TO_DROP ↔ c ∈ COLUMNS_TO_DROP).
  { rewrite list_elem_of_filter. split; [tauto|]. split; [|done].
    apply Hsub. left. }
  rewrite !filter_cons.
  destruct (decide (c ∉ _)), (decide (c ∉ COLUMNS_TO_DROP)); try tauto;
    rewrite IH; auto; intros; apply Hsub; by right.
Qed.

Lemma drop_cells_existing (cols l row : list pyval) :
  (∀ c, c ∈ l → c ∈ cols) →
  drop_cells (filter (λ c, c ∈ cols) COLUMNS_TO_DROP) l row
  = drop_cells COLUMNS_TO_DROP l row.
Proof.
  revert row. induction l as [|c l IH]; intros row Hsub; [done|].
  destruct row as [|v vs]; [done|]. simpl.
  assert (c ∈ filter (λ c, c ∈ cols) COLUMNS_TO_DROP ↔ c ∈ COLUMNS_TO_DROP).
  { rewrite list_elem_of_filter. split; [tauto|]. split; [|done].
    apply Hsub. left. }
  destruct (decide (c ∈ filter _ _)), (decide (c ∈ COLUMNS_TO_DROP)); try tauto;
    rewrite IH; auto; intros; apply Hsub; by right.
Qed.

Lemma at_label_nil cols label : at_label cols label [] = PNaN.
Proof. unfold at_label. by destruct (index_of label cols). Qed.

Lemma at_label_cons c cs label v vs :
  at_label (c :: cs) label (v :: vs)
  = if decide (c = label) then v else at_label cs label vs.
Proof.
  unfold at_label. simpl. destruct (decide (c = label)); [done|].
  by destruct (index_of label cs).
Qed.

Lemma drop_cells_at_label labels cols row label :
  label ∉ labels →
  at_label (filter (λ c, c ∉ labels) cols) label (drop_cells labels cols row)
  = at_label cols label row.
Proof.
  intros Hl. revert row.
  induction cols as [|c cs IH]; intros row; [done|].
  destruct row as [|v vs].
  - by rewrite !at_label_nil.
  - rewrite filter_cons, at_label_cons. simpl.
    destruct (decide (c ∈ labels)) as [Hc|Hc].
    + rewrite decide_False by tauto. rewrite IH.
      by destruct (decide (c = label)) as [->|_].
    + rewrite decide_True by done. by rewrite at_label_cons, IH.
Qed.

Lemma clean_csv_columns (df : frame) :
  columns (clean_csv df).1 = filter (λ c, c ∉ COLUMNS_TO_DROP) (columns df).
Proof. unfold clean_csv, drop. simpl. by rewrite filter_existing. Qed.

Lemma clean_csv_none_left (df : frame) c :
  c ∈ COLUMNS_TO_DROP → c ∉ columns (clean_csv df).1.
Proof.
  rewrite clean_csv_columns. by intros Hc [Hn _]%list_elem_of_filter.
Qed.

(** X1: cleaning drops exactly the columns of the list: the header keeps
    the other names in their order, none of the five listed names is left,
    the rows are as many as before, and the number reported is the number
    of listed names that were in the header. *)
Theorem clean_csv_header (df : frame) :
  columns (clean_csv df).1 = filter (λ c, c ∉ COLUMNS_TO_DROP) (columns df)
  ∧ (∀ c, c ∈ COLUMNS_TO_DROP → c ∉ columns (clean_csv df).1)
  ∧ length (rows (clean_csv df).1) = length (rows df)
  ∧ (clean_csv df).2
    = length (filter (λ c, c ∈ columns df) COLUMNS_TO_DROP).
Proof.
  split_and!; [apply clean_csv_columns | apply clean_csv_none_left | |done].
  unfold clean_csv, drop. simpl. by rewrite length_fmap.
Qed.

(** X2: cleaning changes no cell of a column it keeps: a column whose name is
    not on the list reads the same in every row before and after. *)
Theorem clean_csv_cells (df : frame) (name : string) (i : nat) (row : list pyval) :
  PStr (lit name) ∉ COLUMNS_TO_DROP →
  rows df !! i = Some row →
  ∃ row', rows (clean_csv df).1 !! i = Some row'
          ∧ cell (columns (clean_csv df).1) name row'
            = cell (columns df) name row.
Proof.
  intros Hn Hrow. unfold clean_csv, drop. simpl.
  rewrite list_lookup_fmap, Hrow. simpl. eexists. split; [done|].
  rewrite filter_existing, drop_cells_existing by done.
  apply (drop_cells_at_label COLUMNS_TO_DROP (columns df) row (PStr (lit name)) Hn).
Qed.

Lemma clean_csv_cells_witness :
  let df := Frame [PStr (lit "Tenant"); PStr (lit "Phone");
                   PStr (lit "Address")]
                  [[PStr (lit "Acme"); PStr (lit "555 0100");
                    PStr (lit "1 Main St")]] in
  ∃ row', rows (clean_csv df).1 !! 0%nat = Some row'
          ∧ cell (columns (clean_csv df).1) "Address" row'
            = PStr (lit "1 Main St").
Proof.
  apply (clean_csv_cells
           (Frame [PStr (lit "Tenant"); PStr (lit "Phone");
                   PStr (lit "Address")]
                  [[PStr (lit "Acme"); PStr (lit "555 0100");
                    PStr (lit "1 Main St")]])
           "Address" 0
           [PStr (lit "Acme"); PStr (lit "555 0100"); PStr (lit "1 Main St")]).
  - apply (bool_decide_unpack _). by vm_compute.
  - reflexivity.
Defined.

(** X4: [main] reads the two files and overwrites neither: a file that is
    there gets its cleaned copy under the name with [_cleaned], a file that
    is not there is skipped with a message, and no other file of the
    directory changes. *)
Theorem clean_main_files (files : gmap string frame) :
  let files' := (main files).1 in
  (∀ p, p ∈ FILES → files' !! name p = files !! name p)
  ∧ (∀ p df, p ∈ FILES → files !! name p = Some df →
       files' !! cleaned p = Some (clean_csv df).1)
  ∧ (∀ p, p ∈ FILES → files !! name p = None →
       files' !! cleaned p = files !! cleaned p
       ∧ Skipping (name p) ∈ (main files).2)
  ∧ (∀ f, f ∉ cleaned <$> FILES → files' !! f = files !! f).
Proof.
  unfold main, FILES. cbn [foldl]. unfold main_step, cleaned. cbn [fst snd].
  set (f1 := Path "IOS_Tenant_Targets" ".csv").
  set (f2 := Path "IOS_Tenant_Targets_Wth_Coords" ".csv").
  assert (Hne : ∀ a b : string, bool_decide (a = b) = false → a ≠ b)
    by (intros a b Hb ->; by rewrite bool_decide_eq_true_2 in Hb).
  destruct (files !! name f1) as [d1|] eqn:E1; cbn [fst snd].
  - destruct (clean_csv d1) as [c1 n1] eqn:C1. cbn [fst snd].
    rewrite (lookup_insert_ne _ _ (name f2)) by (by apply Hne).
    destruct (files !! name f2) as [d2|] eqn:E2; cbn [fst snd].
    + destruct (clean_csv d2) as [c2 n2] eqn:C2. cbn [fst snd].
      split_and!.
      * intros p [->|[->|[]%elem_of_nil]%elem_of_cons]%elem_of_cons;
          by rewrite !lookup_insert_ne by (by apply Hne).
      * intros p df [->|[->|[]%elem_of_nil]%elem_of_cons]%elem_of_cons Hp.
        -- rewrite lookup_insert_ne by (by apply Hne).
           rewrite lookup_insert_eq.
           rewrite E1 in Hp. injection Hp as <-. by rewrite C1.
        -- rewrite lookup_insert_eq. rewrite E2 in Hp. injection Hp as <-.
           by rewrite C2.
      * intros p [->|[->|[]%elem_of_nil]%elem_of_cons]%elem_of_cons Hp;
          congruence.
      * intros f Hf. rewrite !fmap_cons, !elem_of_cons in Hf.
        rewrite !lookup_insert_ne; [done|..]; intros <-; apply Hf; auto.
    + split_and!.
      * intros p [->|[->|[]%elem_of_nil]%elem_of_cons]%elem_of_cons;
          by rewrite !lookup_insert_ne by (by apply Hne).
      * intros p df [->|[->|[]%elem_of_nil]%elem_of_cons]%elem_of_cons Hp.
        -- rewrite lookup_insert_eq. rewrite E1 in Hp. injection Hp as <-.
           by rewrite C1.
        -- congruence.
      * intros p [->|[->|[]%elem_of_nil]%elem_of_cons]%elem_of_cons Hp;
          [congruence|].
        split; [by rewrite lookup_insert_ne by (by apply Hne)|].
        rewrite !elem_of_app, !elem_of_cons. auto.
      * intros f Hf. rewrite !fmap_cons, !elem_of_cons in Hf.
        rewrite !lookup_insert_ne; [done|..]; intros <-; apply Hf; auto.
  - destruct (files !! name f2) as [d2|] eqn:E2; cbn [fst snd].
    + destruct (clean_csv d2) as [c2 n2] eqn:C2. cbn [fst snd].
      split_and!.
      * intros p [->|[->|[]%elem_of_nil]%elem_of_cons]%elem_of_cons;
          by rewrite !lookup_insert_ne by (by apply Hne).
      * intros p df [->|[->|[]%elem_of_nil]%elem_of_cons]%elem_of_cons Hp.
        -- congruence.
        -- rewrite lookup_insert_eq. rewrite E2 in Hp. injection Hp as <-.
           by rewrite C2.
      * intros p [->|[->|[]%elem_of_nil]%elem_of_cons]%elem_of_cons Hp;
          [|congruence].
        split; [by rewrite lookup_insert_ne by (by apply Hne)|].
        rewrite !elem_of_app, !elem_of_cons. auto.
      * intros f Hf. rewrite !fmap_cons, !elem_of_cons in Hf.
        rewrite !lookup_insert_ne; [done|..]; intros <-; apply Hf; auto.
    + split_and!.
      * done.
      * intros p df [->|[->|[]%elem_of_nil]%elem_of_cons]%elem_of_cons Hp;
          congruence.
      * intros p [->|[->|[]%elem_of_nil]%elem_of_cons]%elem_of_cons Hp;
          (split; [done|]); rewrite !elem_of_app, !elem_of_cons; auto.
      * done.
Qed.

End CleanFacts.

(** ** The layers of the map *)

Module ReportFacts.
Import Text Pandas Simplify Enrich Report.

(** *** The order of [sorted] *)

Lemma str_leb_refl a : str_leb a a = true.
Proof.
  induction a as [|x a IH]; [done|]. simpl.
  by rewrite N.eqb_refl, IH, orb_true_r.
Qed.

Lemma str_leb_total a b : str_leb a b = true ∨ str_leb b a = true.
Proof.
  revert b. induction a as [|x a IH]; intros [|y b]; simpl; auto.
  destruct (N.ltb_spec x y), (N.ltb_spec y x), (N.eqb_spec x y),
    (N.eqb_spec y x); simpl; auto; lia.
Qed.

Lemma str_leb_antisym a b : str_leb a b = true → str_leb b a = true → a = b.
Proof.
  revert b. induction a as [|x a IH]; intros [|y b]; simpl; try done.
  destruct (N.ltb_spec x y), (N.ltb_spec y x), (N.eqb_spec x y),
    (N.eqb_spec y x); simpl; try done; try lia.
  intros. subst. f_equal. auto.
Qed.

Lemma str_leb_trans a b c :
  str_leb a b = true → str_leb b c = true → str_leb a c = true.
Proof.
  revert b c. induction a as [|x a IH]; intros [|y b] [|z c]; simpl; try done.
  destruct (N.ltb_spec x y), (N.ltb_spec y z), (N.ltb_spec x z),
    (N.eqb_spec x y), (N.eqb_spec y z), (N.eqb_spec x z);
    simpl; try done; try lia.
  apply IH.
Qed.

#[local] Instance str_le_total : Total str_le.
Proof. intros a b. apply str_leb_total. Qed.

#[local] Instance str_le_trans : Transitive str_le.
Proof. intros a b c. apply str_leb_trans. Qed.

#[local] Instance str_le_antisym : AntiSymm (=) str_le.
Proof. intros a b. apply str_leb_antisym. Qed.

Lemma unique_spec seen l x :
  x ∈ unique seen l ↔ x ∈ l ∧ x ∉ seen.
Proof.
  revert seen. induction l as [|y l IH]; intros seen; simpl.
  - rewrite !elem_of_nil. tauto.
  - destruct (decide (y ∈ seen)) as [Hy|Hy].
    + rewrite IH, elem_of_cons. split; [tauto|].
      intros [[->|?] ?]; tauto.
    + rewrite !elem_of_cons, IH, elem_of_cons. split.
      * intros [->|[? ?]]; tauto.
      * intros [[->|?] ?]; [tauto|]. destruct (decide (x = y)); tauto.
Qed.

Lemma unique_NoDup seen l : NoDup (unique seen l).
Proof.
  revert seen. induction l as [|y l IH]; intros seen; simpl; [constructor|].
  destruct (decide (y ∈ seen)); [apply IH|].
  constructor; [|apply IH]. rewrite unique_spec, elem_of_cons. tauto.
Qed.

Lemma tenants_NoDup (df : list enriched) : NoDup (tenants df).
Proof. unfold tenants. rewrite merge_sort_Permutation. apply unique_NoDup. Qed.

Lemma tenants_elem (df : list enriched) t :
  t ∈ tenants df ↔ ∃ e, e ∈ df ∧ Tenant (base e) = t.
Proof.
  unfold tenants.
  rewrite merge_sort_Permutation, unique_spec, list_elem_of_fmap. split.
  - intros [(e & -> & He) _]. eauto.
  - intros (e & He & <-). split; [eauto | apply not_elem_of_nil].
Qed.

(** X5: the tenants a map is layered by are the tenants that occur in the
    rows, each once, in ascending order of their code points. *)
Theorem tenants_sorted (df : list enriched) :
  StronglySorted str_le (tenants df)
  ∧ NoDup (tenants df)
  ∧ ∀ t, t ∈ tenants df ↔ ∃ e, e ∈ df ∧ Tenant (base e) = t.
Proof.
  split_and!; [|apply tenants_NoDup | apply tenants_elem].
  unfold tenants. apply StronglySorted_merge_sort; apply _.
Qed.

(** *** Layers *)

Lemma filter_either {A} (P Q : A → Prop) `{∀ x, Decision (P x)}
    `{∀ x, Decision (Q x)} (l : list A) :
  (∀ x, P x → Q x → False) →
  filter P l ++ filter Q l ≡ₚ filter (λ x, P x ∨ Q x) l.
Proof.
  intros Hd. induction l as [|x l IH]; [done|].
  rewrite !filter_cons.
  destruct (decide (P x)) as [HP|HP], (decide (Q x)) as [HQ|HQ].
  - destruct (Hd x HP HQ).
  - rewrite decide_True by auto. simpl. by rewrite IH.
  - rewrite decide_True by auto. rewrite <- Permutation_middle. by rewrite IH.
  - rewrite decide_False by tauto. done.
Qed.

Lemma groups_cover {A} (key : A → str) (ts : list str) (l : list A) :
  NoDup ts →
  concat ((λ t, filter (λ e, key e = t) l) <$> ts)
  ≡ₚ filter (λ e, key e ∈ ts) l.
Proof.
  induction 1 as [|t ts Ht Hts IH]; simpl.
  - induction l as [|x l IHl]; [done|].
    by rewrite filter_cons_False by apply not_elem_of_nil.
  - rewrite IH, filter_either by (intros x <-; done).
    apply reflexive_eq, list_filter_iff. intros x.
    rewrite elem_of_cons. naive_solver.
Qed.

Lemma filter_all {A} (P : A → Prop) `{∀ x, Decision (P x)} (l : list A) :
  (∀ x, x ∈ l → P x) → filter P l = l.
Proof.
  induction l as [|x l IH]; intros Hl; [done|].
  rewrite filter_cons_True by (apply Hl; left). f_equal.
  apply IH. intros; apply Hl; by right.
Qed.

Lemma layer_markers cm t (df : list enriched) :
  marker_of cm t <$> filter (λ e, Tenant (base e) = t) df
  = (λ e, marker_of cm (Tenant (base e)) e)
      <$> filter (λ e, Tenant (base e) = t) df.
Proof.
  induction df as [|e df IH]; [done|]. rewrite filter_cons.
  destruct (decide (Tenant (base e) = t)) as [<-|]; [|done].
  by rewrite !fmap_cons, IH.
Qed.

Lemma concat_layers cm (ts : list str) (df : list enriched) :
  concat (markers <$>
            ((λ t, Layer t (marker_of cm t
                              <$> filter (λ e, Tenant (base e) = t) df))
               <$> ts))
  = (λ e, marker_of cm (Tenant (base e)) e)
      <$> concat ((λ t, filter (λ e, Tenant (base e) = t) df) <$> ts).
Proof.
  induction ts as [|t ts IH]; [done|].
  rewrite !fmap_cons. cbn [concat markers].
  by rewrite fmap_app, IH, layer_markers.
Qed.

(** What [build_map] returns when it returns. *)
Lemma build_map_Some mean (df : list enriched) ls :
  build_map mean df = Some ls →
  forallb is_resolved df = true
  ∧ ls = (λ t, Layer t (marker_of (color_map (tenants df)) t
                          <$> filter (λ e, Tenant (base e) = t) df))
           <$> tenants df.
Proof.
  unfold build_map. destruct (is_nan _ || is_nan _); [done|].
  destruct (forallb is_resolved df); [|done]. by intros [= <-].
Qed.

(** X6: when [build_map] returns, every row has exactly one marker, in
    the layer of its tenant: the layers are named by [tenants], a layer
    holds the markers of the rows of its tenant in their order, and all
    markers together are the markers of all rows. *)
Theorem build_map_layers mean (df : list enriched) (ls : list layer) :
  build_map mean df = Some ls →
  let colors := color_map (tenants df) in
  layer_name <$> ls = tenants df
  ∧ (∀ ly, ly ∈ ls →
       markers ly
       = (λ e, marker_of colors (Tenant (base e)) e)
           <$> filter (λ e, Tenant (base e) = layer_name ly) df)
  ∧ concat (markers <$> ls)
    ≡ₚ (λ e, marker_of colors (Tenant (base e)) e) <$> df
  ∧ length (concat (markers <$> ls)) = length df.
Proof.
  intros [_ ->]%build_map_Some colors. fold colors.
  assert (Hperm : concat (markers <$>
                    ((λ t, Layer t (marker_of colors t
                                      <$> filter (λ e, Tenant (base e) = t) df))
                       <$> tenants df))
                  ≡ₚ (λ e, marker_of colors (Tenant (base e)) e) <$> df).
  { rewrite concat_layers.
    rewrite (groups_cover (λ e, Tenant (base e)) (tenants df) df
               (tenants_NoDup df)).
    rewrite filter_all; [done|]. intros e He. apply tenants_elem. eauto. }
  split_and!.
  - rewrite <- list_fmap_compose. simpl. by rewrite list_fmap_id.
  - intros ly (t & -> & _)%list_elem_of_fmap. simpl. apply layer_markers.
  - done.
  - by rewrite Hperm, length_fmap.
Qed.

Lemma build_map_layers_witness :
  ∃ ls, build_map mean_from_left placed = Some ls
        ∧ layer_name <$> ls = [lit "Acme"; lit "Beta"]
        ∧ length (concat (markers <$> ls)) = 3%nat.
Proof.
  eexists. split; [by vm_compute|].
  destruct (build_map_layers mean_from_left placed _ eq_refl)
    as (Hn & _ & _ & Hl).
  split; [exact Hn | exact Hl].
Defined.

(** *** Colours *)

Lemma color_map_from_fresh j ts t :
  t ∉ ts → color_map_from j ts !! t = None.
Proof.
  revert j. induction ts as [|t0 ts IH]; intros j Ht; simpl; [done|].
  rewrite not_elem_of_cons in Ht. destruct Ht as [Hne Ht].
  rewrite lookup_union_None, IH by done. split; [done|].
  by rewrite lookup_singleton_ne.
Qed.

Lemma color_map_from_lookup j ts i t :
  NoDup ts → ts !! i = Some t →
  color_map_from j ts !! t
  = Some (default ""%string
            (color_cycle !! ((j + i) mod length color_cycle)%nat)).
Proof.
  intros Hnd. revert j i. induction Hnd as [|t0 ts Ht0 Hnd IH]; intros j i Hi;
    [done|]. simpl. destruct i as [|i]; simpl in Hi.
  - injection Hi as ->. rewrite lookup_union_r by by apply color_map_from_fresh.
    rewrite lookup_singleton_eq. by rewrite Nat.add_0_r.
  - rewrite lookup_union_l'.
    + rewrite (IH (S j) i Hi). by replace (S j + i)%nat with (j + S i)%nat by lia.
    + rewrite (IH (S j) i Hi). eauto.
Qed.

Lemma color_cycle_lookup (i : nat) :
  ∃ c, color_cycle !! (i mod length color_cycle)%nat = Some c.
Proof.
  apply lookup_lt_is_Some. apply Nat.mod_upper_bound. by compute.
Qed.

(** X8: the layer at position [i] (the tenant at position [i] of the
    sorted tenants) has the colour at position [i mod 19] of the palette on
    all its markers, so the 19 colours repeat from the twentieth tenant
    on. *)
Theorem layer_colour mean (df : list enriched) (ls : list layer) (i : nat)
    (ly : layer) :
  build_map mean df = Some ls →
  ls !! i = Some ly →
  ∃ c, color_cycle !! (i mod 19)%nat = Some c
       ∧ ∀ m, m ∈ markers ly → icon_color m = Some c.
Proof.
  intros [_ ->]%build_map_Some Hi.
  destruct (color_cycle_lookup i) as [c Hc]. exists c.
  split; [exact Hc|].
  rewrite list_lookup_fmap in Hi.
  destruct (tenants df !! i) as [t|] eqn:Ht; [|done]. injection Hi as <-.
  simpl. intros m (e & -> & _)%list_elem_of_fmap. simpl.
  unfold color_map.
  rewrite (color_map_from_lookup 0 _ i t (tenants_NoDup df) Ht).
  change (0 + i)%nat with i. by rewrite Hc.
Qed.

Lemma layer_colour_witness :
  ∃ ls ly, build_map mean_from_left placed = Some ls
           ∧ ls !! 1%nat = Some ly
           ∧ ∃ c, color_cycle !! (1 mod 19)%nat = Some c
                  ∧ ∀ m, m ∈ markers ly → icon_color m = Some c.
Proof.
  eexists _, _. split; [by vm_compute|]. split; [reflexivity|].
  eapply (layer_colour mean_from_left placed _ 1); reflexivity.
Defined.

End ReportFacts.

(** ** A batch of queries *)

Module BatchFacts.
Import Text Pandas Simplify Enrich Report.

Section Batch.
Variable provider : world → str → answer * Q.

#[local] Abbreviation geocode_one := (Enrich.geocode_one provider).
#[local] Abbreviation geocode_rows := (Enrich.geocode_rows provider).

Lemma geocode_one_blank addr st :
  strip addr = [] → geocode_one addr st = ((None, None), st).
Proof. intros E. unfold Enrich.geocode_one. by rewrite E. Qed.

(** What a row got is what the cache holds for its query at the end. *)
Lemma geocode_rows_recorded df st e :
  e ∈ (geocode_rows df st).1 →
  (strip (full_address (base e)) = [] ∧ lat e = None ∧ lon e = None)
  ∨ (strip (full_address (base e)) ≠ []
     ∧ (geocode_rows df st).2.1 !! strip (full_address (base e))
       = Some (lat e, lon e)).
Proof.
  revert st. induction df as [|r rs IH]; intros st; simpl.
  - by intros ?%elem_of_nil.
  - pose proof (EnrichFacts.geocode_one_cached provider (full_address r) st) as Hc.
    pose proof (geocode_one_blank (full_address r) st) as Hb.
    destruct (geocode_one (full_address r) st) as [[la lo] st1].
    pose proof (EnrichFacts.geocode_rows_keeps provider rs st1) as Hk.
    specialize (IH st1).
    destruct (geocode_rows rs st1) as [es st2]. simpl in *.
    intros [->|He]%elem_of_cons; [|by apply IH]. simpl.
    destruct (decide (strip (full_address r) = [])) as [E|E].
    + left. specialize (Hb E). by injection Hb as -> -> _.
    + right. split; [done|]. apply Hk. by apply Hc.
Qed.

Lemma geocode_one_subseteq addr st : st.1 ⊆ (geocode_one addr st).2.1.
Proof.
  apply map_subseteq_spec. intros k v. apply EnrichFacts.geocode_one_keeps.
Qed.

Lemma geocode_rows_subseteq df st : st.1 ⊆ (geocode_rows df st).2.1.
Proof.
  apply map_subseteq_spec. intros k v. apply EnrichFacts.geocode_rows_keeps.
Qed.

Lemma geocode_rows_elem df st r :
  r ∈ df → ∃ e, e ∈ (geocode_rows df st).1 ∧ base e = r.
Proof.
  intros Hr. pose proof (EnrichFacts.geocode_rows_base provider df st) as Hb.
  rewrite <- Hb in Hr. apply list_elem_of_fmap in Hr as (e & -> & He). eauto.
Qed.

(** X9: during a batch the cache only grows: no entry it started with is
    removed or changed, and at the end it holds every query of the batch
    that is not blank. *)
Theorem cache_only_grows df existing w :
  let rep := geocode_addresses provider df existing w in
  default ∅ existing ⊆ (state_after rep).1
  ∧ ∀ r, r ∈ df → strip (full_address r) ≠ [] →
         is_Some ((state_after rep).1 !! strip (full_address r)).
Proof.
  unfold geocode_addresses.
  pose proof (geocode_rows_subseteq df (default ∅ existing, w)) as Hsub.
  pose proof (geocode_rows_recorded df (default ∅ existing, w)) as Hrec.
  pose proof (geocode_rows_elem df (default ∅ existing, w)) as Hel.
  destruct (geocode_rows df (default ∅ existing, w)) as [all st]. simpl in *.
  split; [done|]. intros r (e & He & <-)%Hel Hne.
  destruct (Hrec e He) as [[? _]|[_ ->]]; [done | eauto].
Qed.

(** X10: within one batch two rows whose queries are equal once stripped
    get equal coordinates, whatever the provider answers from one call to
    the next. *)
Theorem same_query_same_coords df existing w e1 e2 :
  let rep := geocode_addresses provider df existing w in
  e1 ∈ with_coords rep → e2 ∈ with_coords rep →
  strip (full_address (base e1)) = strip (full_address (base e2)) →
  lat e1 = lat e2 ∧ lon e1 = lon e2.
Proof.
  unfold geocode_addresses.
  pose proof (geocode_rows_recorded df (default ∅ existing, w)) as Hrec.
  destruct (geocode_rows df (default ∅ existing, w)) as [all st]. simpl in *.
  intros H1 H2 E.
  destruct (Hrec e1 H1) as [(B1 & -> & ->)|[N1 C1]],
    (Hrec e2 H2) as [(B2 & -> & ->)|[N2 C2]]; try done; try congruence.
  rewrite E in C1. rewrite C1 in C2. by injection C2 as -> ->.
Qed.

(** *** Requests *)

Lemma rate_limited_requests n q w :
  (requests (rate_limited provider n q w).2 ≤ requests w + S n)%nat.
Proof.
  destruct (EnrichFacts.rate_limited_attempts provider n q w)
    as (evs & k & a & Htr & Hat & Hk & _ & _).
  unfold requests. rewrite Htr, List.filter_app, length_app.
  rewrite EnrichFacts.filter_reverse_length.
  rewrite (EnrichFacts.attempts_requests _ _ _ _ Hat). lia.
Qed.

(** One query: nothing is asked unless it is new, and then at most four
    times; the cache gains at most that query. *)
Lemma geocode_one_cost addr st :
  (strip addr = [] ∨ is_Some (st.1 !! strip addr)) ∧ (geocode_one addr st).2 = st
  ∨ strip addr ≠ [] ∧ st.1 !! strip addr = None
    ∧ dom (geocode_one addr st).2.1 = {[strip addr]} ∪ dom st.1
    ∧ (requests (geocode_one addr st).2.2 ≤ requests st.2 + 4)%nat.
Proof.
  destruct (decide (strip addr = [])) as [E|E].
  - left. split; [auto|]. by rewrite geocode_one_blank.
  - destruct (st.1 !! strip addr) as [v|] eqn:L.
    + left. split; [eauto|].
      by rewrite (EnrichFacts.geocode_one_hit provider addr st v).
    + right. split_and!; try done.
      * destruct (EnrichFacts.geocode_one_miss provider addr st E L)
          as (v & w & ->). simpl. by rewrite dom_insert_L.
      * unfold Enrich.geocode_one. destruct (strip addr) as [|c t]; [done|].
        rewrite L. unfold geocode.
        pose proof (rate_limited_requests max_retries (c :: t) st.2) as Hr.
        destruct (rate_limited provider max_retries (c :: t) st.2) as [r w].
        simpl in *. unfold max_retries in Hr. lia.
Qed.

Lemma queries_cons r df :
  queries (r :: df)
  = (if decide (strip (full_address r) = []) then ∅
     else {[strip (full_address r)]}) ∪ queries df.
Proof.
  unfold queries. rewrite fmap_cons, filter_cons.
  destruct (decide (strip (full_address r) = [])).
  - rewrite decide_False by tauto. set_solver.
  - rewrite decide_True by done. by rewrite list_to_set_cons.
Qed.

Lemma geocode_rows_cost df st :
  (requests (geocode_rows df st).2.2
   ≤ requests st.2 + 4 * size (new_queries df st.1))%nat.
Proof.
  revert st. induction df as [|r rs IH]; intros st; simpl; [lia|].
  destruct (geocode_one_cost (full_address r) st) as [[Hq Hst]|(Hne & Hmiss & Hdom & Hreq)].
  - destruct (geocode_one (full_address r) st) as [[la lo] st1].
    simpl in Hst. subst st1. specialize (IH st).
    destruct (geocode_rows rs st) as [es st2]. simpl in *.
    assert (new_queries (r :: rs) st.1 = new_queries rs st.1) as ->; [|done].
    unfold new_queries. rewrite queries_cons.
    destruct Hq as [E|Hs].
    + rewrite decide_True by done. set_solver.
    + destruct (decide _); [set_solver|].
      apply elem_of_dom in Hs. set_solver.
  - destruct (geocode_one (full_address r) st) as [[la lo] st1].
    simpl in *. specialize (IH st1).
    destruct (geocode_rows rs st1) as [es st2]. simpl in *.
    set (q := strip (full_address r)) in *.
    assert (Hq : q ∉ dom st.1) by by apply not_elem_of_dom.
    assert (new_queries (r :: rs) st.1 = {[q]} ∪ new_queries rs st1.1) as ->.
    { unfold new_queries. rewrite queries_cons, Hdom. fold q.
      rewrite decide_False by done.
      apply set_eq. intros x. destruct (decide (x = q)); set_solver. }
    rewrite size_union, size_singleton; [lia|].
    unfold new_queries. rewrite Hdom. set_solver.
Qed.

(** X11: a batch sends the provider at most four requests for each
    distinct query that is not blank and that the cache did not hold at
    the start; rows that repeat a query cost nothing. *)
Theorem requests_bounded df existing w :
  let rep := geocode_addresses provider df existing w in
  (requests (state_after rep).2
   ≤ requests w + (max_retries + 1) * size (new_queries df (default ∅ existing)))%nat.
Proof.
  unfold geocode_addresses.
  pose proof (geocode_rows_cost df (default ∅ existing, w)) as Hc.
  destruct (geocode_rows df (default ∅ existing, w)) as [all st].
  simpl in *. unfold max_retries. lia.
Qed.

(** *** Pairs *)

Lemma geocode_one_paired addr st :
  map_Forall (λ _ v, paired v) st.1 →
  paired (geocode_one addr st).1
  ∧ map_Forall (λ _ v, paired v) (geocode_one addr st).2.1.
Proof.
  intros Hp. unfold Enrich.geocode_one.
  destruct (strip addr) as [|c t]; [by split|].
  destruct (st.1 !! (c :: t)) as [v|] eqn:L; [split; [by eapply Hp | done]|].
  destruct (geocode provider (c :: t) st.2) as [r w]. simpl.
  assert (paired match r with
                 | Returned (Some (la, lo)) => (Some la, Some lo)
                 | Returned None => (None, None)
                 | Raised _ => (None, None)
                 end) as Hv by (by destruct r as [[[la lo]|]|e]).
  split; [done|]. by apply map_Forall_insert_2.
Qed.

Lemma geocode_rows_paired df st :
  map_Forall (λ _ v, paired v) st.1 →
  Forall (λ e, paired (lat e, lon e)) (geocode_rows df st).1
  ∧ map_Forall (λ _ v, paired v) (geocode_rows df st).2.1.
Proof.
  revert st. induction df as [|r rs IH]; intros st Hp; simpl; [by split|].
  destruct (geocode_one_paired (full_address r) st Hp) as [Hv Hp1].
  destruct (geocode_one (full_address r) st) as [[la lo] st1].
  destruct (IH st1 Hp1) as [Hes Hp2].
  destruct (geocode_rows rs st1) as [es st2]. simpl in *.
  split; [by constructor | done].
Qed.

(** X12: coordinates come in pairs: when every seeded entry has both
    coordinates or neither, no row of the batch is left with just one, and
    the cache keeps that form. *)
Theorem coordinates_paired df existing w :
  map_Forall (λ _ v, paired v) (default ∅ existing) →
  let rep := geocode_addresses provider df existing w in
  Forall (λ e, lat e = None ↔ lon e = None) (with_coords rep)
  ∧ map_Forall (λ _ v, paired v) (state_after rep).1.
Proof.
  intros Hp. unfold geocode_addresses.
  destruct (geocode_rows_paired df (default ∅ existing, w) Hp) as [He Hc].
  destruct (geocode_rows df (default ∅ existing, w)) as [all st]. by simpl in *.
Qed.

(** *** A batch the cache covers *)

Lemma geocode_rows_cached df st :
  (∀ r, r ∈ df → strip (full_address r) = []
                 ∨ is_Some (st.1 !! strip (full_address r))) →
  (geocode_rows df st).2 = st.
Proof.
  induction df as [|r rs IH]; intros Hall; simpl; [done|].
  destruct (geocode_one_cost (full_address r) st)
    as [[_ Hst]|(Hne & Hmiss & _)].
  - destruct (geocode_one (full_address r) st) as [[la lo] st1].
    simpl in Hst. subst st1.
    assert (Hrs : (geocode_rows rs st).2 = st)
      by (apply IH; intros; apply Hall; by right).
    by destruct (geocode_rows rs st).
  - destruct (Hall r) as [E|[v Hv]]; [left | done | congruence].
Qed.

(** X13: when the seeded cache holds every query of the batch that is not
    blank, the batch leaves the world as it was (no request is sent, the
    clock does not move) and the cache as well. *)
Theorem covered_batch_is_offline df cache w :
  (∀ r, r ∈ df → strip (full_address r) = []
                 ∨ is_Some (cache !! strip (full_address r))) →
  state_after (geocode_addresses provider df (Some cache) w) = (cache, w).
Proof.
  intros Hall. unfold geocode_addresses. simpl.
  pose proof (geocode_rows_cached df (cache, w) Hall) as Hst.
  by destruct (geocode_rows df (cache, w)).
Qed.

End Batch.

Lemma same_query_same_coords_witness :
  let r1 := base (pin "Acme" "Tampa" None None) in
  let r2 := base (pin "Beta" "Tampa" None None) in
  let e1 := pin "Acme" "Tampa" (Some 27.5%float) (Some (-82.5)%float) in
  let e2 := pin "Beta" "Tampa" (Some 27.5%float) (Some (-82.5)%float) in
  lat e1 = lat e2 ∧ lon e1 = lon e2.
Proof.
  apply (same_query_same_coords flaky_provider
           [base (pin "Acme" "Tampa" None None);
            base (pin "Beta" "Tampa" None None)]
           None (World 0%Q None [])).
  - vm_compute. left.
  - vm_compute. right. left.
  - reflexivity.
Defined.

Lemma coordinates_paired_witness :
  let rep := geocode_addresses flaky_provider
               [base (pin "Acme" "Tampa" None None)]
               (Some {[ tampa := (Some 27.5%float, Some (-82.5)%float) ]})
               (World 0%Q None []) in
  Forall (λ e, lat e = None ↔ lon e = None) (with_coords rep)
  ∧ map_Forall (λ _ v, paired v) (state_after rep).1.
Proof.
  apply (coordinates_paired flaky_provider).
  apply map_Forall_singleton. by vm_compute.
Defined.

Lemma covered_batch_is_offline_witness :
  let cache : gmap str coords :=
    {[ tampa := (Some 27.5%float, Some (-82.5)%float) ]} in
  state_after (geocode_addresses flaky_provider
                 [base (pin "Acme" "Tampa" None None);
                  base (pin "Beta" "Tampa" None None)]
                 (Some cache) (World 0%Q None []))
  = (cache, World 0%Q None []).
Proof.
  apply (covered_batch_is_offline flaky_provider).
  intros r Hr. right. exists (Some 27.5%float, Some (-82.5)%float).
  apply elem_of_cons in Hr as [->|Hr]; [reflexivity|].
  apply elem_of_cons in Hr as [->|Hr]; [reflexivity|].
  by apply elem_of_nil in Hr.
Defined.

End BatchFacts.

(** ** The pace of the requests *)

Module PaceFacts.
Import Text Pandas Simplify Enrich.

(** The last call recorded by the rate limiter is not in the future. *)
#[local] Abbreviation on_time w :=
  (∀ t : Q, last_call w = Some t → Qle t (clock w)).

(** From [w] to [w'] with [k] more requests: the clock went on, and if
    requests were made, the last of them was made at least [k - 1] seconds
    after [w], and at least [k] seconds after the call before [w]. *)
#[local] Abbreviation paced w w' k :=
  (on_time w'
   ∧ Qle (clock w) (clock w')
   ∧ requests w' = Nat.add (requests w) k
   ∧ (Nat.eq k 0 → w' = w)
   ∧ (le 1 k →
      ∃ t' : Q, last_call w' = Some t'
            ∧ Qle (Qminus (Qplus (clock w) (inject_Z (Z.of_nat k))) 1%Q) t'
            ∧ ∀ t : Q, last_call w = Some t
                       → Qle (Qplus t (inject_Z (Z.of_nat k))) t')).

Lemma inject_succ (k : nat) :
  (inject_Z (Z.of_nat (S k)) == inject_Z (Z.of_nat k) + 1)%Q.
Proof. rewrite Nat2Z.inj_succ. unfold Z.succ. by rewrite inject_Z_plus. Qed.

Lemma paced_refl w : on_time w → paced w w 0%nat.
Proof.
  intros Hw. split_and!; [done | apply Qle_refl | by rewrite Nat.add_0_r | done | lia].
Qed.

Lemma paced_trans w w1 w2 k1 k2 :
  paced w w1 k1 → paced w1 w2 k2 → paced w w2 (k1 + k2)%nat.
Proof.
  intros (Ho1 & Hc1 & Hr1 & Hz1 & Hp1) (Ho2 & Hc2 & Hr2 & Hz2 & Hp2).
  destruct k1 as [|k1].
  { rewrite (Hz1 eq_refl) in *. by split_and!. }
  destruct k2 as [|k2].
  { rewrite (Hz2 eq_refl) in *. rewrite Nat.add_0_r. by split_and!. }
  destruct Hp1 as (t1 & Hl1 & Hb1 & Ht1); [lia|].
  destruct Hp2 as (t2 & Hl2 & Hb2 & Ht2); [lia|].
  specialize (Ht2 t1 Hl1).
  assert (E : (inject_Z (Z.of_nat (S k1 + S k2))
               == inject_Z (Z.of_nat (S k1)) + inject_Z (Z.of_nat (S k2)))%Q)
    by (by rewrite Nat2Z.inj_add, inject_Z_plus).
  split_and!; [done | by eapply Qle_trans | lia | lia |].
  intros _. exists t2. split_and!; [done | rewrite E; lra |].
  intros t Ht. specialize (Ht1 t Ht). rewrite E. lra.
Qed.

Lemma requests_sleep d w : requests (sleep d w) = requests w.
Proof. done. Qed.

Lemma acquire_pace w :
  on_time w →
  last_call (acquire_request_slot w) = Some (clock (acquire_request_slot w))
  ∧ (clock w <= clock (acquire_request_slot w))%Q
  ∧ (∀ t, last_call w = Some t → (t + 1 <= clock (acquire_request_slot w))%Q)
  ∧ requests (acquire_request_slot w) = requests w.
Proof.
  intros Hw. unfold acquire_request_slot.
  destruct (last_call w) as [t|] eqn:El.
  - specialize (Hw t eq_refl). unfold min_delay_seconds.
    destruct (Qle_bool (1 - (clock w - t)) 0) eqn:Eq; simpl.
    + apply Qle_bool_iff in Eq. split_and!; [done | lra | | done].
      intros ? [= <-]. lra.
    + assert (¬ (1 - (clock w - t) <= 0)%Q) as Hn
        by (rewrite <- Qle_bool_iff; congruence).
      split_and!; [done | lra | | done].
      intros ? [= <-]. lra.
  - simpl. split_and!; [done | lra | done | done].
Qed.

Section Pace.
Variable provider : world → str → answer * Q.
Hypothesis took_time : ∀ w q, (0 <= (provider w q).2)%Q.

(** One request through the rate limiter. *)
Lemma request_pace q w :
  on_time w →
  paced w (call_provider provider q (acquire_request_slot w)).2 1%nat
  ∧ last_call (call_provider provider q (acquire_request_slot w)).2
    = Some (clock (acquire_request_slot w)).
Proof.
  intros Hw. destruct (acquire_pace w Hw) as (Hl & Hc & Ht & Hr).
  set (w1 := acquire_request_slot w) in *. unfold call_provider.
  pose proof (took_time w1 q) as Htook.
  destruct (provider w1 q) as [a took]. simpl in Htook. cbn [snd].
  split; [|done]. split_and!.
  - intros t. cbn [last_call clock]. rewrite Hl. intros [= <-]. lra.
  - cbn [clock]. lra.
  - unfold requests in *. cbn [trace List.filter length]. rewrite Hr. lia.
  - done.
  - intros _. exists (clock w1). cbn [last_call clock].
    change (inject_Z (Z.of_nat 1)) with 1%Q.
    split_and!; [done | lra |]. intros t Ht'. specialize (Ht t Ht'). lra.
Qed.

Lemma rate_limited_pace n q w :
  on_time w →
  ∃ k, (1 ≤ k)%nat ∧ paced w (rate_limited provider n q w).2 k.
Proof.
  revert w. induction n as [|n IH]; intros w Hw; cbn [rate_limited];
    destruct (request_pace q w Hw) as (Hone & Hlast);
    destruct (call_provider provider q (acquire_request_slot w)) as [a w2];
    cbn [snd] in Hone, Hlast.
  - exists 1%nat. split; [done|].
    destruct a as [la lo| |e]; [done..|]. by destruct (retried e).
  - destruct a as [la lo| |e]; [by exists 1%nat..|].
    destruct (retried e); [|by exists 1%nat].
    set (w3 := sleep error_wait_seconds w2).
    assert (Hc3 : (clock w3 == clock w2 + 5)%Q) by reflexivity.
    assert (Hl3 : last_call w3 = last_call w2) by reflexivity.
    assert (Hr3 : requests w3 = requests w2) by reflexivity.
    assert (Ho3 : on_time w3).
    { intros t. rewrite Hl3. intros Ht. pose proof (proj1 Hone t Ht). lra. }
    destruct (IH w3 Ho3) as (k & Hk & Hp).
    set (w4 := (rate_limited provider n q w3).2) in *. clearbody w4 w3.
    exists (1 + k)%nat. split; [lia|].
    destruct Hone as (Ho2 & Hc2 & Hr2 & _ & Hp2).
    destruct Hp as (Ho' & Hc' & Hr' & _ & Hp').
    destruct Hp2 as (t2 & Hl2 & Hb2 & Ht2); [lia|].
    destruct Hp' as (t' & Hl' & Hb' & Ht'); [lia|].
    rewrite Hl3 in Ht'. specialize (Ht' t2 Hl2).
    assert (E : (inject_Z (Z.of_nat (1 + k))
                 == 1 + inject_Z (Z.of_nat k))%Q)
      by (by rewrite Nat2Z.inj_add, inject_Z_plus).
    change (inject_Z (Z.of_nat 1)) with 1%Q in Hb2, Ht2.
    split_and!.
    + done.
    + lra.
    + lia.
    + lia.
    + intros _. exists t'. split_and!; [done | rewrite E; lra |].
      intros t Hlt. specialize (Ht2 t Hlt). rewrite E. lra.
Qed.

Lemma geocode_one_pace addr st :
  on_time st.2 →
  ∃ k, paced st.2 (geocode_one provider addr st).2.2 k.
Proof.
  intros Hw. unfold geocode_one.
  destruct (strip addr) as [|c t]; [exists 0%nat; by apply paced_refl|].
  destruct (st.1 !! (c :: t)); [exists 0%nat; by apply paced_refl|].
  unfold geocode.
  destruct (rate_limited_pace max_retries (c :: t) st.2 Hw) as (k & _ & Hp).
  exists k. by destruct (rate_limited provider max_retries (c :: t) st.2).
Qed.

Lemma geocode_rows_pace df st :
  on_time st.2 →
  ∃ k, paced st.2 (geocode_rows provider df st).2.2 k.
Proof.
  revert st. induction df as [|r rs IH]; intros st Hw; simpl.
  { exists 0%nat. by apply paced_refl. }
  destruct (geocode_one_pace (full_address r) st Hw) as (k1 & Hp1).
  destruct (geocode_one provider (full_address r) st) as [[la lo] st1].
  simpl in Hp1.
  destruct (IH st1 (proj1 Hp1)) as (k2 & Hp2).
  destruct (geocode_rows provider rs st1) as [es st2]. simpl in *.
  exists (k1 + k2)%nat. by apply (paced_trans _ st1.2).
Qed.

(** X14: the requests of a batch are at least [min_delay_seconds = 1]
    second apart, so a batch that sends [k] requests lasts at least
    [k - 1] seconds, however fast the provider answers. *)
Theorem batch_takes_time df existing w (k : nat) :
  (∀ t, last_call w = Some t → (t <= clock w)%Q) →
  let w' := (state_after (geocode_addresses provider df existing w)).2 in
  requests w' = (requests w + k)%nat →
  (inject_Z (Z.of_nat k) - 1 <= clock w' - clock w)%Q.
Proof.
  intros Hw. unfold geocode_addresses.
  destruct (geocode_rows_pace df (default ∅ existing, w) Hw) as (k' & Hp).
  destruct (geocode_rows provider df (default ∅ existing, w)) as [all st].
  simpl in *. destruct Hp as (Ho & Hc & Hr & _ & Hp). intros Hk.
  assert (k' = k) as -> by lia.
  destruct k as [|k]; [change (inject_Z (Z.of_nat 0)) with 0%Q; lra|].
  destruct Hp as (t' & Hl & Hb & _); [lia|].
  specialize (Ho t' Hl). lra.
Qed.

End Pace.

Lemma batch_takes_time_witness :
  let w := World 0%Q None [] in
  let w' := (state_after (geocode_addresses flaky_provider
                            [base (Report.pin "Acme" "Tampa" None None)]
                            None w)).2 in
  (inject_Z (Z.of_nat 4) - 1 <= clock w' - clock w)%Q.
Proof.
  apply (batch_takes_time flaky_provider).
  - intros w q. unfold flaky_provider. by destruct (_ <? _)%nat.
  - intros t. simpl. discriminate.
  - reflexivity.
Defined.

End PaceFacts.

(** ** The cache seed *)

Module SeedFacts.
Import Text Pandas Simplify Enrich Report.

#[local] Abbreviation seed_step :=
  (λ (m : gmap str coords) (c : cached_row),
     <[strip (py_str (cached_address c))
       := (Some (cached_lat c), Some (cached_lon c))]> m).

Lemma seed_fold_lookup (l : list cached_row) m k v :
  foldl seed_step m l !! k = Some v →
  m !! k = Some v
  ∨ ∃ c, c ∈ l ∧ k = strip (py_str (cached_address c))
         ∧ v = (Some (cached_lat c), Some (cached_lon c)).
Proof.
  revert m. induction l as [|c l IH]; intros m; simpl; [auto|].
  intros [Hm|(c' & Hc' & ? & ?)]%IH.
  - apply lookup_insert_Some in Hm as [[<- <-]|[_ Hm]].
    + right. exists c. split_and!; [left|done..].
    + by left.
  - right. exists c'. split_and!; [by right|done..].
Qed.

Lemma seed_fold_keeps (l : list cached_row) m k :
  is_Some (m !! k) → is_Some (foldl seed_step m l !! k).
Proof.
  revert m. induction l as [|c l IH]; intros m Hk; simpl; [done|].
  apply IH. rewrite lookup_insert_is_Some'. auto.
Qed.

Lemma seed_fold_holds (l : list cached_row) m c :
  c ∈ l → is_Some (foldl seed_step m l !! strip (py_str (cached_address c))).
Proof.
  revert m. induction l as [|c' l IH]; intros m; [by intros ?%elem_of_nil|].
  intros [->|Hc]%elem_of_cons; simpl; [|by apply IH].
  apply seed_fold_keeps. rewrite lookup_insert_eq. eauto.
Qed.

(** X15: the cache seeded from the coordinates file holds the stripped
    addresses of exactly the rows that have both coordinates, each with
    the coordinates of such a row; a row that lacks one contributes
    nothing. *)
Theorem seed_cache_entries (cached : list cached_row) :
  (∀ k v, seed_cache cached !! k = Some v →
     ∃ c, c ∈ cached ∧ has_coords c = true
          ∧ k = strip (py_str (cached_address c))
          ∧ v = (Some (cached_lat c), Some (cached_lon c)))
  ∧ (∀ c, c ∈ cached → has_coords c = true →
       is_Some (seed_cache cached !! strip (py_str (cached_address c)))).
Proof.
  unfold seed_cache. split.
  - intros k v [Hm|(c & [Hc Hin]%list_elem_of_In%filter_In & ? & ?)]%seed_fold_lookup;
      [done|].
    exists c. by rewrite list_elem_of_In.
  - intros c Hc Hh. apply seed_fold_holds.
    apply list_elem_of_In, filter_In. by rewrite <- list_elem_of_In.
Qed.

End SeedFacts.

(** ** [main] of excel-to-map.py *)

Module MainFacts.
Import Text Pandas Simplify Enrich Report.

Section Main.
Context `{UnicodeData}.
Variable provider : world → str → answer * Q.
Variable mean : list (option float) → float.

Lemma full_address_not_blank cols raw :
  strip (full_address (clean_row cols raw)) ≠ [].
Proof.
  intros Hs%TextLemmas.strip_nil_spaces. unfold clean_row in Hs.
  cbn [full_address] in Hs.
  rewrite !Forall_app in Hs. destruct Hs as (_ & _ & _ & _ & _ & Hs).
  change (lit ", USA") with (44 :: lit " USA") in Hs.
  apply Forall_cons in Hs as [Hs _]. by vm_compute in Hs.
Qed.

(** X16: every row that is loaded has a query that is not blank, made of
    its simplified address, its city, its state and the country, so the
    blank-query exit of [geocode_one] is never taken for a row of the
    file: a row without an address is still looked up, by city and
    state. *)
Theorem loaded_rows_have_queries (df : frame) (rs : list row) :
  load_and_clean df = inr rs →
  Forall (λ r,
            strip (full_address r) ≠ []
            ∧ clean_address r = strip_suite (Address r)
            ∧ full_address r
              = clean_address r ++ lit ", " ++ City r ++ lit ", " ++ State r
                ++ lit ", USA") rs.
Proof.
  intros (first & rest & _ & ->)%LoadFacts.load_and_clean_rows.
  apply Forall_fmap, Forall_forall. intros raw _. split_and!; [|done..].
  apply full_address_not_blank.
Qed.

(** X17: when the coordinates file of an earlier run holds, with both
    coordinates, the query of every row that is loaded, [main] sends no
    request and waits for nothing, writes every row to the coordinates
    file, and writes no failures file. *)
Theorem seeded_rerun_is_offline csv cached df w :
  load_and_clean csv = inr df →
  (∀ r, r ∈ df →
     ∃ c, c ∈ cached ∧ has_coords c = true
          ∧ strip (py_str (cached_address c)) = strip (full_address r)) →
  ∃ run,
    main provider mean csv (Some cached) w = inr run
    ∧ final run = (seed_cache cached, w)
    ∧ failures run = None
    ∧ base <$> coords_csv run = df.
Proof.
  intros Hload Hseed. unfold main. rewrite Hload. eexists. split; [done|].
  cbn [final failures coords_csv fmap option_fmap option_map].
  destruct (EnrichFacts.geocode_addresses_unfold provider df
              (Some (seed_cache cached)) w) as (_ & -> & ->).
  cbn [default].
  assert (Hcov : ∀ r, r ∈ df →
            strip (full_address r) = []
            ∨ is_Some ((seed_cache cached, w).1 !! strip (full_address r))).
  { intros r (c & Hc & Hh & <-)%Hseed. right. simpl. unfold seed_cache.
    apply SeedFacts.seed_fold_holds.
    apply list_elem_of_In, filter_In. by rewrite <- list_elem_of_In. }
  pose proof (BatchFacts.geocode_rows_cached provider df _ Hcov) as Hst.
  pose proof (BatchFacts.geocode_rows_recorded provider df (seed_cache cached, w))
    as Hrec.
  pose proof (EnrichFacts.geocode_rows_base provider df (seed_cache cached, w))
    as Hbase.
  assert (Hst' : state_after (geocode_addresses provider df
                                (Some (seed_cache cached)) w)
                 = (seed_cache cached, w)).
  { unfold geocode_addresses. simpl.
    by destruct (geocode_rows provider df (seed_cache cached, w)). }
  rewrite Hst'. rewrite Hst in Hrec. clear Hst Hst'.
  set (all := (geocode_rows provider df (seed_cache cached, w)).1) in *.
  assert (Hres : ∀ e, e ∈ all → is_failed e = false).
  { intros e He. destruct (Hrec e He) as [(Hb & _)|[_ Hc]].
    - exfalso. assert (Hin : base e ∈ df).
      { rewrite <- Hbase. apply list_elem_of_fmap. eauto. }
      apply LoadFacts.load_and_clean_rows in Hload
        as (first & rest & _ & ->).
      apply list_elem_of_fmap in Hin as (raw & Hraw & _).
      rewrite Hraw in Hb. by apply full_address_not_blank in Hb.
    - simpl in Hc. unfold seed_cache in Hc.
      apply SeedFacts.seed_fold_lookup in Hc
        as [Hc|(c & [Hc Hh]%list_elem_of_In%filter_In & _ & [= Hla Hlo])];
        [done|].
      unfold is_failed. rewrite Hla, Hlo. simpl.
      unfold has_coords in Hh.
      by destruct (is_nan (cached_lat c)), (is_nan (cached_lon c)). }
  split_and!; [done | by rewrite TextLemmas.list_filter_none |].
  rewrite TextLemmas.list_filter_every; [done|]. intros e He.
  rewrite EnrichFacts.resolved_not_failed. by rewrite Hres.
Qed.

(** X18: [main] hands [build_map] only rows that have both coordinates
    (they are the rows of the coordinates file), so the map can fail on
    its centre only: it is not written exactly when a mean of the
    coordinates is NaN. *)
Theorem map_fails_on_centre_only csv cached w run :
  main provider mean csv cached w = inr run →
  Forall (λ e, is_resolved e = true) (coords_csv run)
  ∧ (map_layers run = None
     ↔ is_nan (mean (lat <$> coords_csv run))
       || is_nan (mean (lon <$> coords_csv run)) = true).
Proof.
  unfold main. destruct (load_and_clean csv) as [e|df]; [done|].
  intros [= <-]. cbn [coords_csv map_layers].
  destruct (EnrichFacts.geocode_addresses_unfold provider df
              (seed_cache <$> cached) w) as (_ & -> & _).
  set (all := (geocode_rows provider df _).1).
  assert (Hres : Forall (λ e, is_resolved e = true)
                        (List.filter is_resolved all)).
  { apply Forall_forall. by intros e [_ He]%list_elem_of_In%filter_In. }
  split; [done|]. unfold build_map.
  destruct (is_nan _ || is_nan _); [done|].
  assert (forallb is_resolved (List.filter is_resolved all) = true) as ->.
  { apply forallb_forall. by intros e [_ He]%filter_In. }
  done.
Qed.

End Main.

Lemma loaded_rows_have_queries_witness :
  Forall (λ r,
            strip (full_address r) ≠ []
            ∧ clean_address r = @strip_suite latin1_only (Address r)
            ∧ full_address r
              = clean_address r ++ lit ", " ++ City r ++ lit ", " ++ State r
                ++ lit ", USA")
         [Row (lit "A") (lit "Tampa DC") (lit "1 Main St, Suite 5")
              (lit "Tampa") (lit "FL") (lit "1 Main St")
              (lit "1 Main St, Tampa, FL, USA")].
Proof.
  apply (@loaded_rows_have_queries latin1_only one_tenant).
  reflexivity.
Defined.

Lemma seeded_rerun_is_offline_witness :
  let cached := [Cached (PStr tampa) 27.5%float (-82.5)%float] in
  let w := World 0%Q None [] in
  ∃ run,
    @main latin1_only flaky_provider mean_from_left one_tenant (Some cached) w
    = inr run
    ∧ final run = (seed_cache cached, w)
    ∧ failures run = None
    ∧ base <$> coords_csv run
      = [Row (lit "A") (lit "Tampa DC") (lit "1 Main St, Suite 5")
             (lit "Tampa") (lit "FL") (lit "1 Main St")
             (lit "1 Main St, Tampa, FL, USA")].
Proof.
  apply (@seeded_rerun_is_offline latin1_only flaky_provider mean_from_left
           one_tenant).
  - reflexivity.
  - intros r Hr. exists (Cached (PStr tampa) 27.5%float (-82.5)%float).
    apply elem_of_cons in Hr as [->|Hr]; [|by apply elem_of_nil in Hr].
    split; [left|]. split; reflexivity.
Defined.

Lemma map_fails_on_centre_only_witness :
  ∃ run,
    @main latin1_only flaky_provider mean_from_left one_tenant None
          (World 0%Q None []) = inr run
    ∧ Forall (λ e, is_resolved e = true) (coords_csv run)
    ∧ (map_layers run = None
       ↔ is_nan (mean_from_left (lat <$> coords_csv run))
         || is_nan (mean_from_left (lon <$> coords_csv run)) = true).
Proof.
  eexists. split; [by vm_compute|].
  apply (@map_fails_on_centre_only latin1_only flaky_provider mean_from_left
           one_tenant None (World 0%Q None [])).
  by vm_compute.
Defined.

End MainFacts.

(** ** Whitespace and [fix_encoding] *)

Module TextFacts.
Import Text Re Simplify Shape.

Lemma split_from_words cur s :
  Forall (λ c, isspace c = false) cur →
  Forall word (split_from cur s).
Proof.
  revert cur. induction s as [|c s IH]; intros cur Hcur; simpl.
  - destruct cur; [constructor|]. constructor; [by split | constructor].
  - destruct (isspace c) eqn:E.
    + destruct cur as [|x cur']; [by apply IH|].
      constructor; [by split | by apply IH].
    + apply IH. apply Forall_app. split; [done|]. by constructor.
Qed.

Lemma split_from_word cur t rest :
  Forall (λ c, isspace c = false) t →
  split_from cur (t ++ rest) = split_from (cur ++ t) rest.
Proof.
  intros Ht. revert cur. induction Ht as [|c t Hc Ht IH]; intros cur; simpl.
  - by rewrite app_nil_r.
  - rewrite Hc, IH. by rewrite <- app_assoc.
Qed.

Lemma split_from_space cur c s :
  isspace c = true →
  split_from cur (c :: s)
  = match cur with [] => split_from [] s | _ => cur :: split_from [] s end.
Proof. intros Hc. simpl. by rewrite Hc. Qed.

Lemma split_join_words ts :
  Forall word ts → split (join (lit " ") ts) = ts.
Proof.
  unfold split. induction 1 as [|t ts [Hne Ht] Hts IH]; [done|].
  destruct ts as [|t' ts].
  - simpl. rewrite <- (app_nil_r t) at 1. rewrite split_from_word by done.
    simpl. by destruct t.
  - change (join (lit " ") (t :: t' :: ts))
      with (t ++ 32 :: join (lit " ") (t' :: ts)).
    rewrite split_from_word by done. cbn [app].
    rewrite (split_from_space t 32) by done. unfold split in IH.
    rewrite IH. by destruct t.
Qed.

(** X19: [split] and [" ".join] undo each other on words: a text splits into
    words, and the words joined by single blanks split into the same
    words; so normalising the whitespace twice is the same as once. *)
Theorem split_join_roundtrip (s : str) (ts : list str) :
  Forall word (split s)
  ∧ (Forall word ts → split (join (lit " ") ts) = ts)
  ∧ join (lit " ") (split (join (lit " ") (split s)))
    = join (lit " ") (split s).
Proof.
  pose proof (split_from_words [] s (Forall_nil_2 _)) as Hw.
  split_and!; [done | apply split_join_words |].
  by rewrite split_join_words.
Qed.

(** *** ASCII text *)

Lemma decode_utf8_ascii s : is_ascii s → decode_utf8 s = Some s.
Proof.
  induction 1 as [|c s Hc Hs IH]; [done|]. simpl.
  destruct (N.ltb_spec c 128); [|lia]. by rewrite IH.
Qed.

Lemma encode_latin1_ascii s : is_ascii s → encode_latin1 s = Some s.
Proof.
  intros Hs. unfold encode_latin1.
  assert (forallb (λ c, c <? 256) s = true) as ->; [|done].
  apply forallb_forall. intros c Hc%list_elem_of_In.
  unfold is_ascii in Hs. rewrite Forall_forall in Hs. apply N.ltb_lt.
  specialize (Hs c Hc). simpl in Hs. lia.
Qed.

Lemma replace_absent h old new s :
  Forall (λ c, c ≠ h) s → replace (h :: old) new s = s.
Proof.
  unfold replace. induction 1 as [|c s Hc Hs IH]; [done|]. simpl.
  destruct (N.eqb_spec h c) as [->|_]; [done|]. simpl. by rewrite IH.
Qed.

Lemma replace_same c s : replace [c] [c] s = s.
Proof.
  unfold replace. induction s as [|x s IH]; [done|]. simpl.
  destruct (N.eqb_spec c x) as [->|_]; simpl; by rewrite IH.
Qed.

Lemma split_from_ascii cur s :
  is_ascii cur → is_ascii s → Forall is_ascii (split_from cur s).
Proof.
  intros Hcur Hs. revert cur Hcur.
  induction Hs as [|c s Hc Hs IH]; intros cur Hcur; simpl.
  - destruct cur; [constructor|]. constructor; [done | constructor].
  - destruct (isspace c).
    + destruct cur; [apply IH; constructor|].
      constructor; [done|]. apply IH. constructor.
    + apply IH. apply Forall_app. split; [done|]. by constructor.
Qed.

Lemma join_ascii ts : Forall is_ascii ts → is_ascii (join (lit " ") ts).
Proof.
  induction 1 as [|t ts Ht Hts IH]; [constructor|].
  destruct ts as [|t' ts]; [done|].
  change (join (lit " ") (t :: t' :: ts))
    with (t ++ 32 :: join (lit " ") (t' :: ts)).
  apply Forall_app. split; [done|]. constructor; [lia | done].
Qed.

Lemma fix_encoding_of_ascii s :
  is_ascii s → fix_encoding s = join (lit " ") (split s).
Proof.
  intros Hs. unfold fix_encoding.
  rewrite encode_latin1_ascii by done. simpl mbind.
  rewrite decode_utf8_ascii by done. cbn [default].
  unfold replacements. cbn [foldl].
  assert (H195 : Forall (λ c, c ≠ 195) s)
    by (eapply Forall_impl; [exact Hs | simpl; intros; lia]).
  assert (H226 : Forall (λ c, c ≠ 226) s)
    by (eapply Forall_impl; [exact Hs | simpl; intros; lia]).
  unfold id. change (lit "-") with [45].
  rewrite !(replace_absent 195 _ _ s H195), (replace_same 45).
  rewrite !(replace_absent 226 _ _ s H226).
  rewrite !(replace_absent 195 _ _ s H195).
  by rewrite !(replace_absent 226 _ _ s H226).
Qed.

(** X20: on ASCII text [fix_encoding] only normalises the whitespace: the
    result is the words of the text joined by single blanks, text that
    already has that form is unchanged, and applying it again changes
    nothing. *)
Theorem fix_encoding_ascii (s : str) :
  is_ascii s →
  fix_encoding s = join (lit " ") (split s)
  ∧ (∀ ts, Forall word ts → s = join (lit " ") ts → fix_encoding s = s)
  ∧ fix_encoding (fix_encoding s) = fix_encoding s.
Proof.
  intros Hs. pose proof (fix_encoding_of_ascii s Hs) as E.
  split_and!; [done | |].
  - intros ts Hts ->. rewrite E. by rewrite split_join_words.
  - rewrite E. rewrite fix_encoding_of_ascii.
    + pose proof (split_from_words [] s (Forall_nil_2 _)) as Hw.
      by rewrite split_join_words.
    + apply join_ascii, split_from_ascii; [constructor | done].
Qed.

Lemma fix_encoding_ascii_witness :
  fix_encoding (lit "12  US-19 N ") = join (lit " ") (split (lit "12  US-19 N "))
  ∧ (∀ ts, Forall word ts → lit "12  US-19 N " = join (lit " ") ts →
       fix_encoding (lit "12  US-19 N ") = lit "12  US-19 N ")
  ∧ fix_encoding (fix_encoding (lit "12  US-19 N "))
    = fix_encoding (lit "12  US-19 N ").
Proof.
  apply (fix_encoding_ascii (lit "12  US-19 N ")).
  unfold is_ascii. vm_compute. repeat constructor.
Defined.

(** *** The shape of joined words *)

Lemma words_single_spaced t rest :
  Forall (λ c, isspace c = false) t →
  single_spaced (t ++ rest) = single_spaced rest.
Proof.
  induction 1 as [|c t Hc Ht IH]; [done|]. cbn [app single_spaced].
  by rewrite Hc, IH.
Qed.

Lemma join_words_shape ts :
  Forall word ts →
  let out := join (lit " ") ts in
  single_spaced out = true
  ∧ starts_blank out = false
  ∧ (∀ c, last out = Some c → isspace c = false)
  ∧ Forall (λ c, isspace c = true → c = 32) out
  ∧ (ts ≠ [] → out ≠ []).
Proof.
  induction 1 as [|t ts [Hne Ht] Hts IH]; [by split_and!|].
  destruct ts as [|t' ts].
  - cbn [join]. split_and!.
    + rewrite <- (app_nil_r t). by rewrite words_single_spaced.
    + destruct t as [|c t]; [done|]. simpl. by apply Forall_cons in Ht as [? _].
    + intros c Hc%last_Some_elem_of. by rewrite Forall_forall in Ht; apply Ht.
    + eapply Forall_impl; [exact Ht|]. simpl. intros c -> [=].
    + done.
  - change (join (lit " ") (t :: t' :: ts))
      with (t ++ 32 :: join (lit " ") (t' :: ts)).
    destruct IH as (Hss & Hsb & Hl & Hb & Hn).
    set (out := join (lit " ") (t' :: ts)) in *. split_and!.
    + rewrite words_single_spaced by done. cbn [single_spaced].
      by rewrite Hsb, Hss, andb_false_r.
    + destruct t as [|c t]; [done|]. simpl. by apply Forall_cons in Ht as [? _].
    + intros c. rewrite last_app_cons, last_cons.
      destruct (last out) as [y|] eqn:Ey; [intros [= <-]; by apply Hl|].
      apply last_None in Ey. by destruct Hn.
    + apply Forall_app. split.
      * eapply Forall_impl; [exact Ht|]. simpl. intros c -> [=].
      * by constructor.
    + by destruct t.
Qed.

Lemma fix_encoding_shape (s : str) :
  starts_blank (fix_encoding s) = false
  ∧ (∀ c, last (fix_encoding s) = Some c → isspace c = false)
  ∧ single_spaced (fix_encoding s) = true
  ∧ Forall (λ c, isspace c = true → c = 32) (fix_encoding s).
Proof.
  unfold fix_encoding.
  set (s2 := foldl _ _ replacements).
  by destruct (join_words_shape (split s2)
                 (split_from_words [] s2 (Forall_nil_2 _)))
    as (Hss & Hsb & Hl & Hb & _).
Qed.

(** X21: what [fix_encoding] returns has its whitespace normalised,
    whatever the text: it neither begins nor ends with whitespace, no two
    whitespace characters stand side by side, and the only whitespace
    character in it is the blank. *)
Theorem fix_encoding_tidy (s : str) :
  (∀ c, head (fix_encoding s) = Some c → isspace c = false)
  ∧ (∀ c, last (fix_encoding s) = Some c → isspace c = false)
  ∧ single_spaced (fix_encoding s) = true
  ∧ Forall (λ c, isspace c = true → c = 32) (fix_encoding s).
Proof.
  destruct (fix_encoding_shape s) as (Hsb & Hl & Hss & Hb).
  split_and!; try done.
  intros c Hc. destruct (fix_encoding s) as [|x t]; [done|].
  by injection Hc as <-.
Qed.

End TextFacts.

(** ** The rows [load_and_clean] returns *)

Module HeaderFacts.
Import Text Pandas Simplify Enrich Shape.

Section Load.
Context `{UnicodeData}.

Lemma clean_cell_shape v :
  starts_blank (clean_cell v) = false
  ∧ (∀ c, last (clean_cell v) = Some c → isspace c = false)
  ∧ single_spaced (clean_cell v) = true.
Proof.
  unfold clean_cell.
  by destruct (TextFacts.fix_encoding_shape (strip (py_str v)))
    as (? & ? & ? & _).
Qed.

(** X22: [load_and_clean] returns one row for every row of the file, in
    order, and leaves out only a first row whose stripped cells include
    Tenant and Location; that row then is the header the cells are read
    under.  Each of the five fields of a returned row is the cell of its
    file row under that name, trimmed and passed through [fix_encoding],
    and has its whitespace normalised: it neither begins nor ends with
    whitespace and has no two whitespace characters side by side. *)
Theorem loaded_rows_kept (df : frame) (rs : list row) :
  load_and_clean df = inr rs →
  ∃ first rest header kept,
    rows df = first :: rest
    ∧ (let first_row_values := (λ v, strip (py_str v)) <$> first in
       (lit "Tenant" ∈ first_row_values ∧ lit "Location" ∈ first_row_values
        ∧ header = first ∧ kept = rest)
       ∨ (¬ (lit "Tenant" ∈ first_row_values
             ∧ lit "Location" ∈ first_row_values)
          ∧ header = columns df ∧ kept = rows df))
    ∧ Forall2 (λ raw r,
                 Tenant r = clean_cell (cell header "Tenant" raw)
                 ∧ Location r = clean_cell (cell header "Location" raw)
                 ∧ Address r = clean_cell (cell header "Address" raw)
                 ∧ City r = clean_cell (cell header "City" raw)
                 ∧ State r = clean_cell (cell header "State" raw))
              kept rs
    ∧ Forall (λ r,
        Forall (λ f, starts_blank f = false
                     ∧ (∀ c, last f = Some c → isspace c = false)
                     ∧ single_spaced f = true)
               [Tenant r; Location r; Address r; City r; State r]) rs.
Proof.
  intros (first & rest & Hrows & ->)%LoadFacts.load_and_clean_rows.
  exists first, rest, (columns (fix_header df first rest)),
    (rows (fix_header df first rest)).
  split_and!; [done | | |].
  - cbv zeta. unfold fix_header.
    destruct (bool_decide (lit "Tenant" ∈ _)) eqn:Et;
      destruct (bool_decide (lit "Location" ∈ _)) eqn:El; cbn [andb].
    1: left; apply bool_decide_eq_true in Et, El; by split_and!.
    all: right; split_and!; [|done..]; intros [Ht Hl].
    + by apply bool_decide_eq_false in El.
    + by apply bool_decide_eq_false in Et.
    + by apply bool_decide_eq_false in Et.
  - apply Forall2_fmap_r, Forall_Forall2_diag, Forall_forall.
    intros raw _. by split_and!.
  - apply Forall_fmap, Forall_forall. intros raw _. unfold clean_row.
    cbn [Tenant Location Address City State].
    repeat (constructor; [apply clean_cell_shape|]). constructor.
Qed.

(** X23: a first row that is taken for the header replaces the header as
    it stands: it is recognised by its stripped cells but installed
    unstripped, so when one of the five names is not literally among its
    cells (it is there only with blanks around it, say) the load fails
    with [ValueError] naming it, whatever the header of the file was. *)
Theorem header_row_replaces_header (df : frame) (first : list pyval)
    (rest : list (list pyval)) (c : string) :
  rows df = first :: rest →
  lit "Tenant" ∈ (λ v, strip (py_str v)) <$> first →
  lit "Location" ∈ (λ v, strip (py_str v)) <$> first →
  c ∈ EXPECTED_COLS → PStr (lit c) ∉ first →
  ∃ missing, load_and_clean df = inl (ValueError missing) ∧ c ∈ missing.
Proof.
  intros Hrows Ht Hl Hc Hn. unfold load_and_clean. rewrite Hrows.
  unfold fix_header. rewrite !bool_decide_eq_true_2 by done. cbn [andb columns].
  assert (Hin : c ∈ filter (λ c, PStr (lit c) ∉ first) EXPECTED_COLS)
    by (by apply list_elem_of_filter).
  destruct (filter _ EXPECTED_COLS) as [|m ms]; [by apply elem_of_nil in Hin|].
  eauto.
Qed.

End Load.

Lemma loaded_rows_kept_witness :
  let rs := [Row (lit "A") (lit "Tampa DC") (lit "1 Main St, Suite 5")
                 (lit "Tampa") (lit "FL") (lit "1 Main St")
                 (lit "1 Main St, Tampa, FL, USA")] in
  ∃ first rest header kept,
    rows one_tenant = first :: rest
    ∧ (let first_row_values := (λ v, strip (py_str v)) <$> first in
       (lit "Tenant" ∈ first_row_values ∧ lit "Location" ∈ first_row_values
        ∧ header = first ∧ kept = rest)
       ∨ (¬ (lit "Tenant" ∈ first_row_values
             ∧ lit "Location" ∈ first_row_values)
          ∧ header = columns one_tenant ∧ kept = rows one_tenant))
    ∧ Forall2 (λ raw r,
                 Tenant r = clean_cell (cell header "Tenant" raw)
                 ∧ Location r = clean_cell (cell header "Location" raw)
                 ∧ Address r = clean_cell (cell header "Address" raw)
                 ∧ City r = clean_cell (cell header "City" raw)
                 ∧ State r = clean_cell (cell header "State" raw))
              kept rs
    ∧ Forall (λ r,
        Forall (λ f, starts_blank f = false
                     ∧ (∀ c, last f = Some c → isspace c = false)
                     ∧ single_spaced f = true)
               [Tenant r; Location r; Address r; City r; State r]) rs.
Proof.
  apply (@loaded_rows_kept latin1_only one_tenant).
  reflexivity.
Defined.

Lemma header_row_replaces_header_witness :
  let header := [PStr (lit "Tenant"); PStr (lit "Location");
                 PStr (lit "Address"); PStr (lit "City"); PStr (lit "State")] in
  let first := [PStr (lit " Tenant"); PStr (lit "Location");
                PStr (lit "Address"); PStr (lit "City"); PStr (lit "State")] in
  ∃ missing,
    @load_and_clean latin1_only (Frame header [first; first])
    = inl (ValueError missing)
    ∧ "Tenant"%string ∈ missing.
Proof.
  apply (@header_row_replaces_header latin1_only _
           [PStr (lit " Tenant"); PStr (lit "Location");
            PStr (lit "Address"); PStr (lit "City"); PStr (lit "State")]
           [[PStr (lit " Tenant"); PStr (lit "Location");
             PStr (lit "Address"); PStr (lit "City"); PStr (lit "State")]]).
  - reflexivity.
  - apply (bool_decide_unpack _). by vm_compute.
  - apply (bool_decide_unpack _). by vm_compute.
  - apply (bool_decide_unpack _). by vm_compute.
  - apply (bool_decide_unpack _). by vm_compute.
Defined.

End HeaderFacts.

(** ** The encoding round trip *)

Module CodecFacts.
Import Text Re Simplify Codec.

#[local] Ltac Zify.zify_post_hook ::= Z.to_euclidean_division_equations.


Lemma land_low n hi x : x < 2 ^ n → N.land (hi * 2 ^ n + x) (N.ones n) = x.
Proof.
  intros Hx. rewrite N.land_ones, N.add_comm, N.Div0.mod_add.
  by apply N.mod_small.
Qed.

Lemma low6_cont x : x < 64 → low6 (128 + x) = x.
Proof.
  intros Hx. unfold low6. change 63 with (N.ones 6).
  change (128 + x) with (2 * 2 ^ 6 + x). by apply land_low.
Qed.

Lemma lead2 x : x < 32 → N.land (192 + x) 31 = x.
Proof.
  intros Hx. change 31 with (N.ones 5). change (192 + x) with (6 * 2 ^ 5 + x).
  by apply land_low.
Qed.

Lemma lead3 x : x < 16 → N.land (224 + x) 15 = x.
Proof.
  intros Hx. change 15 with (N.ones 4). change (224 + x) with (14 * 2 ^ 4 + x).
  by apply land_low.
Qed.

Lemma lead4 x : x < 8 → N.land (240 + x) 7 = x.
Proof.
  intros Hx. change 7 with (N.ones 3). change (240 + x) with (30 * 2 ^ 3 + x).
  by apply land_low.
Qed.

Lemma in_range_true lo hi x : lo ≤ x → x ≤ hi → in_range lo hi x = true.
Proof.
  intros. unfold in_range. apply andb_true_iff. split; by apply N.leb_le.
Qed.

Lemma in_range_false lo hi x : x < lo ∨ hi < x → in_range lo hi x = false.
Proof.
  intros. unfold in_range. apply andb_false_iff.
  destruct (N.leb_spec lo x), (N.leb_spec x hi); auto; lia.
Qed.

Lemma decode_utf8_char c rest :
  scalar c →
  decode_utf8 (utf8_char c ++ rest) = cons c <$> decode_utf8 rest.
Proof.
  intros Hc. unfold utf8_char.
  destruct (N.ltb_spec c 128) as [H1|H1].
  { cbn [app decode_utf8]. by destruct (N.ltb_spec c 128); [|lia]. }
  destruct (N.ltb_spec c 2048) as [H2|H2].
  { cbn [app decode_utf8].
    destruct (N.ltb_spec (192 + c / 64) 128); [lia|].
    rewrite (in_range_true 194 223) by lia.
    unfold is_cont. rewrite (in_range_true 128 191) by lia.
    rewrite lead2, low6_cont, N.shiftl_mul_pow2 by lia.
    change (2 ^ 6) with 64. by replace (c / 64 * 64 + c mod 64) with c by lia. }
  destruct (N.ltb_spec c 65536) as [H3|H3].
  { cbn [app decode_utf8].
    destruct (N.ltb_spec (224 + c / 4096) 128); [lia|].
    rewrite (in_range_false 194 223) by lia.
    rewrite (in_range_true 224 239) by lia.
    assert ((if 224 + c / 4096 =? 224 then in_range 160 191 (128 + (c / 64) mod 64)
             else if 224 + c / 4096 =? 237
                  then in_range 128 159 (128 + (c / 64) mod 64)
                  else is_cont (128 + (c / 64) mod 64)) = true) as ->.
    { destruct (N.eqb_spec (224 + c / 4096) 224);
        [apply in_range_true; lia|].
      destruct (N.eqb_spec (224 + c / 4096) 237);
        [apply in_range_true; unfold scalar in Hc; lia|].
      apply in_range_true; lia. }
    unfold is_cont. rewrite (in_range_true 128 191) by lia. cbn [andb].
    rewrite lead3, !low6_cont, !N.shiftl_mul_pow2 by lia.
    change (2 ^ 12) with 4096. change (2 ^ 6) with 64.
    by replace (c / 4096 * 4096 + (c / 64) mod 64 * 64 + c mod 64) with c
      by lia. }
  cbn [app decode_utf8].
  assert (c < 1114112) by (unfold scalar in Hc; lia).
  destruct (N.ltb_spec (240 + c / 262144) 128); [lia|].
  rewrite (in_range_false 194 223) by lia.
  rewrite (in_range_false 224 239) by lia.
  rewrite (in_range_true 240 244) by lia.
  assert ((if 240 + c / 262144 =? 240
           then in_range 144 191 (128 + (c / 4096) mod 64)
           else if 240 + c / 262144 =? 244
                then in_range 128 143 (128 + (c / 4096) mod 64)
                else is_cont (128 + (c / 4096) mod 64)) = true) as ->.
  { destruct (N.eqb_spec (240 + c / 262144) 240);
      [apply in_range_true; lia|].
    destruct (N.eqb_spec (240 + c / 262144) 244);
      [apply in_range_true; lia|].
    apply in_range_true; lia. }
  unfold is_cont. rewrite !(in_range_true 128 191) by lia. cbn [andb].
  rewrite lead4, !low6_cont, !N.shiftl_mul_pow2 by lia.
  change (2 ^ 18) with 262144. change (2 ^ 12) with 4096. change (2 ^ 6) with 64.
  by replace (c / 262144 * 262144 + (c / 4096) mod 64 * 4096
              + (c / 64) mod 64 * 64 + c mod 64) with c by lia.
Qed.

Lemma utf8_char_bytes c : scalar c → Forall (λ b, b < 256) (utf8_char c).
Proof.
  intros Hc. unfold utf8_char, scalar in *.
  destruct (N.ltb_spec c 128); [repeat constructor; lia|].
  destruct (N.ltb_spec c 2048); [repeat constructor; lia|].
  destruct (N.ltb_spec c 65536); repeat constructor; lia.
Qed.

(** X24: text of Unicode scalar values whose UTF-8 bytes were taken for
    Latin-1 characters is recovered by the first step of [fix_encoding],
    [s.encode("latin1").decode("utf8")]; so [fix_encoding] of the garbled
    text is what its later steps (the replacements and the whitespace)
    make of the original text. *)
Theorem mojibake_roundtrip (s : str) :
  Forall scalar s →
  decode_utf8 (encode_utf8 s) = Some s
  ∧ encode_latin1 (encode_utf8 s) ≫= decode_utf8 = Some s
  ∧ fix_encoding (encode_utf8 s)
    = join (lit " ")
        (split (foldl (λ acc '(bad, good), replace bad good acc) s
                      replacements)).
Proof.
  intros Hs.
  assert (Hd : decode_utf8 (encode_utf8 s) = Some s).
  { unfold encode_utf8. induction Hs as [|c s Hc Hs IH]; [done|].
    change ((c :: s) ≫= utf8_char) with (utf8_char c ++ (s ≫= utf8_char)).
    by rewrite decode_utf8_char, IH. }
  assert (He : encode_latin1 (encode_utf8 s) = Some (encode_utf8 s)).
  { unfold encode_latin1.
    assert (forallb (λ c, c <? 256) (encode_utf8 s) = true) as ->; [|done].
    apply forallb_forall. intros b Hb%list_elem_of_In.
    unfold encode_utf8 in Hb. apply list_elem_of_bind in Hb as (c & Hb & Hc).
    rewrite Forall_forall in Hs.
    pose proof (utf8_char_bytes c (Hs c Hc)) as Hbytes.
    rewrite Forall_forall in Hbytes. apply N.ltb_lt. by apply Hbytes. }
  split_and!; [done | by rewrite He |].
  unfold fix_encoding. rewrite He. cbn [mbind option_bind]. by rewrite Hd.
Qed.

Lemma mojibake_roundtrip_witness :
  let s := [67; 97; 102; 233; 32; 8212; 32; 53] in
  decode_utf8 (encode_utf8 s) = Some s
  ∧ encode_latin1 (encode_utf8 s) ≫= decode_utf8 = Some s
  ∧ fix_encoding (encode_utf8 s)
    = join (lit " ")
        (split (foldl (λ acc '(bad, good), replace bad good acc) s
                      replacements)).
Proof.
  apply (mojibake_roundtrip [67; 97; 102; 233; 32; 8212; 32; 53]).
  repeat (constructor; [left; lia|]). constructor.
Defined.

End CodecFacts.

(** ** Substitution *)

Module SubFacts.
Import Text Re Shape.

Section Engine.
Context `{UnicodeData}.

(** A pattern that begins with a mandatory character of a class. *)
Section ChrFirst.
Variables (P : N → bool) (r' : re) (repl : str).
Let r := Seq (Chr P) r'.

Lemma chr_first_at pv s :
  match_at r pv s
  = match s with
    | c :: t => if P c then run r' accept (Some c) t else None
    | [] => None
    end.
Proof. by destruct s. Qed.

Lemma chr_first_prev n pv pv' s :
  sub_from r repl n pv s = sub_from r repl n pv' s.
Proof.
  destruct s as [|c t]; [done|]. destruct n; [|done]. cbn [sub_from].
  by rewrite (chr_first_at pv), (chr_first_at pv').
Qed.

Lemma chr_first_skip pv pre rest :
  sub_from r repl (length pre) pv (pre ++ rest)
  = sub_from r repl 0 None rest.
Proof.
  revert pv. induction pre as [|c t IH]; intros pv; [apply chr_first_prev|].
  cbn [app length sub_from]. apply IH.
Qed.

(** A match that takes [c :: m] is replaced whole. *)
Lemma chr_first_match pv c m rest :
  match_at r pv (c :: m ++ rest) = Some rest →
  sub_from r repl 0 pv (c :: m ++ rest)
  = repl ++ sub_from r repl 0 None rest.
Proof.
  intros Hm. cbn [sub_from]. rewrite Hm.
  replace (length (c :: m ++ rest) - length rest - 1)%nat with (length m)
    by (cbn [length]; rewrite length_app; lia).
  by rewrite chr_first_skip.
Qed.

Lemma chr_first_miss pv c t :
  match_at r pv (c :: t) = None →
  sub_from r repl 0 pv (c :: t) = c :: sub_from r repl 0 None t.
Proof.
  intros Hm. cbn [sub_from]. rewrite Hm. f_equal. apply chr_first_prev.
Qed.

End ChrFirst.

(** Where the pattern matches nowhere, the text is copied. *)
Lemma sub_no_match (r : re) (repl : str) pv s :
  (∀ pv' pre suf, s = pre ++ suf → match_at r pv' suf = None) →
  sub_from r repl 0 pv s = s.
Proof.
  revert pv. induction s as [|c t IH]; intros pv Hno; [done|].
  cbn [sub_from]. rewrite (Hno pv [] (c :: t) eq_refl). f_equal.
  apply IH. intros pv' pre suf ->. by apply (Hno pv' (c :: pre) suf).
Qed.

Lemma star_accept_space pv s : star isspace accept pv s = Some (lstrip s).
Proof.
  revert pv. induction s as [|c t IH]; intros pv; [done|]. simpl.
  destruct (isspace c); [by rewrite IH | done].
Qed.

(** [re.sub(r"\s+", " ", s)]: one step. *)
Lemma sub_spaces_step pv c t :
  sub_from Dedupe.spaces_re (lit " ") 0 pv (c :: t)
  = if isspace c
    then 32 :: sub_from Dedupe.spaces_re (lit " ") 0 None (lstrip t)
    else c :: sub_from Dedupe.spaces_re (lit " ") 0 None t.
Proof.
  unfold Dedupe.spaces_re. destruct (isspace c) eqn:E.
  - destruct (TextLemmas.lstrip_split t) as (sp & Et & _).
    rewrite Et at 1.
    rewrite (chr_first_match isspace (Star isspace) (lit " ") pv c sp (lstrip t));
      [done|].
    rewrite chr_first_at, E. cbn [run]. rewrite star_accept_space.
    by rewrite <- Et.
  - apply (chr_first_miss isspace (Star isspace)).
    by rewrite chr_first_at, E.
Qed.

Lemma sub_spaces_spec n pv s :
  (length s ≤ n)%nat →
  let out := sub_from Dedupe.spaces_re (lit " ") 0 pv s in
  Forall (λ c, c = 32 ∨ (c ∈ s ∧ isspace c = false)) out
  ∧ single_spaced out = true
  ∧ (starts_blank s = false → starts_blank out = false).
Proof.
  revert pv s. induction n as [|n IH]; intros pv s Hn.
  { destruct s; [|simpl in Hn; lia]. by split_and!. }
  destruct s as [|c t]; [by split_and!|]. simpl in Hn.
  cbn zeta. rewrite sub_spaces_step. destruct (isspace c) eqn:E.
  - destruct (TextLemmas.lstrip_split t) as (sp & Et & _).
    assert (length (lstrip t) ≤ n)%nat as Hl
      by (apply (f_equal length) in Et; rewrite length_app in Et; lia).
    destruct (IH None (lstrip t) Hl) as (Hel & Hss & Hsb).
    split_and!.
    + constructor; [by left|]. eapply Forall_impl; [exact Hel|].
      intros x [->|[Hx Hsx]]; [by left|]. right. split; [|done].
      right. rewrite Et. apply elem_of_app. by right.
    + cbn [single_spaced].
      by rewrite Hss, (Hsb (TextLemmas.starts_blank_lstrip t)), andb_false_r.
    + simpl. congruence.
  - assert (length t ≤ n)%nat as Hl by lia.
    destruct (IH None t Hl) as (Hel & Hss & Hsb).
    split_and!.
    + constructor; [right; split; [left|done]|].
      eapply Forall_impl; [exact Hel|].
      intros x [->|[Hx Hsx]]; [by left|]. right. split; [by right|done].
    + cbn [single_spaced]. by rewrite E, Hss.
    + done.
Qed.

Lemma normalize_text_shape (v : Pandas.pyval) :
  Forall (λ c, c = 32 ∨ (isword c = true ∧ isspace c = false))
         (Dedupe.normalize_text v)
  ∧ single_spaced (Dedupe.normalize_text v) = true.
Proof.
  destruct v as [| |s]; [by split| |].
  all: unfold Dedupe.normalize_text, sub;
    match goal with
    | |- context [sub_from Dedupe.punct_re [] 0 None ?x] => set (low := x)
    end;
    rewrite DedupeFacts.sub_punct;
    destruct (sub_spaces_spec _ None
                (List.filter (λ c, isword c || isspace c) low)
                (Nat.le_refl _)) as (Hel & Hss & _);
    (split; [|done]);
    eapply Forall_impl; [exact Hel|];
    intros x [->|[[_ Hx]%list_elem_of_In%filter_In Hsx]]; [by left|];
    right; rewrite Hsx, orb_false_r in Hx; done.
Qed.

(** X26: what [normalize_text] returns is made of word characters
    (letters, digits, the underscore) and blanks, and no two blanks stand
    side by side: no punctuation but the underscore is left and no
    whitespace but the single blank. *)
Theorem normalize_text_alphabet (v : Pandas.pyval) :
  Forall (λ c, c = 32 ∨ (isword c = true ∧ isspace c = false))
         (Dedupe.normalize_text v)
  ∧ single_spaced (Dedupe.normalize_text v) = true.
Proof. apply normalize_text_shape. Qed.

(** *** The key *)

Lemma app_sep_inj {A} (x : A) (a a' b b' : list A) :
  x ∉ a → x ∉ a' → a ++ x :: b = a' ++ x :: b' → a = a' ∧ b = b'.
Proof.
  revert a'. induction a as [|y a IH]; intros [|y' a'] Ha Ha' E;
    cbn [app] in E.
  - by injection E as ->.
  - injection E as <- _. destruct Ha'. left.
  - injection E as -> _. destruct Ha. left.
  - injection E as -> E.
    apply not_elem_of_cons in Ha as [_ Ha].
    apply not_elem_of_cons in Ha' as [_ Ha'].
    by destruct (IH a' Ha Ha' E) as [-> ->].
Qed.

Lemma normalize_text_no_bar (v : Pandas.pyval) :
  124 ∉ Dedupe.normalize_text v.
Proof.
  intros Hin. destruct (normalize_text_shape v) as [Hel _].
  rewrite Forall_forall in Hel. by destruct (Hel _ Hin) as [?|[? _]].
Qed.

(** X27: the separator of the key cannot be mistaken: two rows have the
    same [_dedupe_key] exactly when their normalised addresses are equal
    and their normalised states are equal, since [normalize_text] leaves
    no [|] in either part. *)
Theorem dedupe_key_separates (cols r1 r2 : list Pandas.pyval) :
  Dedupe.dedupe_key cols r1 = Dedupe.dedupe_key cols r2
  ↔ Dedupe.normalize_text (Pandas.cell cols "Address" r1)
    = Dedupe.normalize_text (Pandas.cell cols "Address" r2)
    ∧ Dedupe.normalize_text (Pandas.cell cols "State" r1)
      = Dedupe.normalize_text (Pandas.cell cols "State" r2).
Proof.
  unfold Dedupe.dedupe_key. change (lit "|") with [124]. cbn [app]. split.
  - apply app_sep_inj; apply normalize_text_no_bar.
  - by intros [-> ->].
Qed.

End Engine.
End SubFacts.

(** ** The result of [strip_suite] *)

Module StripFacts.
Import Text Re Simplify Shape.

(** [[,\s]] *)
#[local] Abbreviation sep := (λ c : N, comma c || isspace c).

Section Engine.
Context `{UnicodeData}.

(** *** [\s{2,}] *)

Lemma sub_wide_step pv c t :
  sub_from spaces_re (lit " ") 0 pv (c :: t)
  = if isspace c && starts_blank t
    then 32 :: sub_from spaces_re (lit " ") 0 None (lstrip t)
    else c :: sub_from spaces_re (lit " ") 0 None t.
Proof.
  unfold spaces_re.
  destruct (isspace c && starts_blank t) eqn:E.
  - apply andb_true_iff in E as [Ec Et].
    destruct t as [|c' t']; [done|]. simpl in Et.
    cbn [lstrip]. rewrite Et.
    destruct (TextLemmas.lstrip_split t') as (sp & Esp & _).
    rewrite Esp at 1.
    apply (SubFacts.chr_first_match isspace
             (Seq (Chr isspace) (Star isspace)) (lit " ") pv c (c' :: sp)).
    rewrite SubFacts.chr_first_at, Ec. cbn [app run]. rewrite Et.
    by rewrite SubFacts.star_accept_space, <- Esp.
  - apply (SubFacts.chr_first_miss isspace
             (Seq (Chr isspace) (Star isspace))).
    rewrite SubFacts.chr_first_at.
    destruct (isspace c); [|done]. cbn [run].
    destruct t as [|c' t']; [done|]. simpl in E. by rewrite E.
Qed.

Lemma sub_wide_spec n pv s :
  (length s ≤ n)%nat →
  let out := sub_from spaces_re (lit " ") 0 pv s in
  single_spaced out = true
  ∧ (starts_blank s = false → starts_blank out = false).
Proof.
  revert pv s. induction n as [|n IH]; intros pv s Hn.
  { destruct s; [|simpl in Hn; lia]. by split. }
  destruct s as [|c t]; [by split|]. simpl in Hn.
  cbn zeta. rewrite sub_wide_step.
  destruct (isspace c && starts_blank t) eqn:E.
  - destruct (TextLemmas.lstrip_split t) as (sp & Et & _).
    assert (length (lstrip t) ≤ n)%nat as Hl
      by (apply (f_equal length) in Et; rewrite length_app in Et; lia).
    destruct (IH None (lstrip t) Hl) as (Hss & Hsb).
    split.
    + cbn [single_spaced].
      by rewrite Hss, (Hsb (TextLemmas.starts_blank_lstrip t)), andb_false_r.
    + apply andb_true_iff in E as [Ec _]. simpl. congruence.
  - assert (length t ≤ n)%nat as Hl by lia.
    destruct (IH None t Hl) as (Hss & Hsb).
    split; [|done]. cbn [single_spaced]. rewrite Hss, andb_true_r.
    destruct (isspace c); [|done]. simpl in E.
    by rewrite (Hsb E).
Qed.

(** *** [[,\s]+$] *)

Lemma eol_miss k pv (s : str) :
  s ≠ [] → s ≠ [10] → run Eol k pv s = None.
Proof.
  intros Hn Hl. destruct s as [|c [|c' t]]; [done| |].
  - cbn [run]. destruct c as [|p]; [done|].
    do 4 (try destruct p as [p|p|]; try done).
  - cbn [run]. destruct c as [|p]; [done|].
    do 4 (try destruct p as [p|p|]; try done).
Qed.

Lemma star_eol pv s :
  star sep (run Eol accept) pv s = if forallb sep s then Some [] else None.
Proof.
  revert pv. induction s as [|c t IH]; intros pv; [done|].
  cbn [star forallb]. destruct (comma c || isspace c) eqn:E.
  - rewrite IH. destruct (forallb sep t) eqn:F; [done|]. cbn [andb].
    apply eol_miss; [done|]. intros [= -> ->]. done.
  - cbn [andb]. apply eol_miss; [done|]. intros [= -> ->]. done.
Qed.

Lemma trailing_at pv c t :
  match_at trailing_re pv (c :: t)
  = if sep c && forallb sep t then Some [] else None.
Proof.
  unfold match_at, trailing_re. cbn [run].
  destruct (comma c || isspace c); [|done]. by rewrite star_eol.
Qed.

(** The last substitution removes a tail of commas and whitespace, and
    the whole of it. *)
Lemma sub_trailing_spec pv s :
  let out := sub_from trailing_re [] 0 pv s in
  (∃ tail, s = out ++ tail ∧ forallb sep tail = true)
  ∧ (∀ c, last out = Some c → comma c || isspace c = false).
Proof.
  revert pv. induction s as [|c t IH]; intros pv.
  { split; [by exists [] | done]. }
  cbn zeta. cbn [sub_from]. rewrite trailing_at.
  destruct (sep c && forallb sep t) eqn:E.
  - replace (length (c :: t) - length (@nil N) - 1)%nat with (length t)
      by (cbn [length]; lia).
    assert (sub_from trailing_re [] (length t) (Some c) t = []) as ->.
    { rewrite <- (app_nil_r t) at 2. unfold trailing_re.
      by rewrite SubFacts.chr_first_skip. }
    split; [by exists (c :: t) | done].
  - destruct (IH (Some c)) as ((tail & Et & Htail) & Hl).
    set (out := sub_from trailing_re [] 0 (Some c) t) in *.
    split; [exists tail; split; [by rewrite Et at 1 | done]|].
    intros x. rewrite last_cons.
    destruct (last out) as [y|] eqn:Ey; [intros [= <-]; by apply Hl|].
    intros [= <-]. apply last_None in Ey. rewrite Ey in Et. simpl in Et.
    subst t. cbn beta in E. by rewrite Htail, andb_true_r in E.
Qed.

(** X28: what [strip_suite] returns is trimmed: it does not begin with
    whitespace, it does not end with a comma or with whitespace, and no
    two whitespace characters stand side by side in it. *)
Theorem strip_suite_tidy (addr : str) :
  (∀ c, head (strip_suite addr) = Some c → isspace c = false)
  ∧ (∀ c, last (strip_suite addr) = Some c
          → comma c = false ∧ isspace c = false)
  ∧ single_spaced (strip_suite addr) = true.
Proof.
  unfold strip_suite, sub.
  set (z := sub_from hash_re [] 0 None _).
  set (y := strip (sub_from spaces_re (lit " ") 0 None z)).
  destruct (sub_trailing_spec None y) as ((tail & Ey & _) & Hl).
  set (out := sub_from trailing_re [] 0 None y) in *.
  split_and!.
  - intros c Hc. apply (TextLemmas.strip_head (sub_from spaces_re (lit " ") 0 None z)).
    fold y. rewrite Ey. by destruct out.
  - intros c Hc. by apply orb_false_elim, Hl.
  - destruct (sub_wide_spec _ None z (Nat.le_refl _)) as [Hss _].
    apply TextLemmas.single_spaced_strip in Hss. fold y in Hss.
    rewrite Ey in Hss. by apply TextLemmas.single_spaced_app in Hss as [? _].
Qed.

(** *** Addresses with nothing to remove *)

Lemma without_fragments_none pieces :
  Forall (λ p, suite_fragment p = false) pieces →
  without_fragments pieces = with_commas pieces.
Proof.
  induction 1 as [|p ps Hp Hps IH]; [done|].
  unfold without_fragments, with_commas in *. rewrite !fmap_cons.
  cbn [concat]. by rewrite Hp, IH.
Qed.

Lemma hash_free_copy pv s :
  Forall (λ c, c ≠ 35) s → sub_from hash_re [] 0 pv s = s.
Proof.
  intros Hs. apply SubFacts.sub_no_match. intros pv' pre suf ->.
  apply Forall_app in Hs as [_ Hs]. unfold hash_re.
  rewrite SubFacts.chr_first_at. destruct suf as [|c t]; [done|].
  apply Forall_cons in Hs as [Hc _]. unfold hash.
  by destruct (N.eqb_spec c 35).
Qed.

Lemma single_spaced_copy pv s :
  single_spaced s = true → sub_from spaces_re (lit " ") 0 pv s = s.
Proof.
  intros Hs. apply SubFacts.sub_no_match. intros pv' pre suf ->.
  apply TextLemmas.single_spaced_app in Hs as [_ Hs]. unfold spaces_re.
  rewrite SubFacts.chr_first_at. destruct suf as [|c t]; [done|].
  destruct (isspace c) eqn:Ec; [|done]. cbn [run].
  destruct t as [|c' t']; [done|].
  cbn [single_spaced starts_blank] in Hs. rewrite Ec in Hs.
  by destruct (isspace c').
Qed.

Lemma trimmed_copy pv s :
  (∀ c, last s = Some c → comma c || isspace c = false) →
  sub_from trailing_re [] 0 pv s = s.
Proof.
  intros Hl. apply SubFacts.sub_no_match. intros pv' pre suf ->.
  destruct suf as [|c t]; [done|]. rewrite trailing_at.
  destruct (sep c && forallb sep t) eqn:E; [|done]. exfalso.
  change (forallb sep (c :: t) = true) in E.
  rewrite forallb_forall in E.
  destruct (last (c :: t)) as [x|] eqn:Ex; [|by apply last_None in Ex].
  pose proof (Hl x) as Hx. rewrite last_app, Ex in Hx.
  specialize (Hx eq_refl). apply last_Some_elem_of, list_elem_of_In in Ex.
  apply E in Ex. cbn beta in Ex. congruence.
Qed.

(** X29: [strip_suite] leaves an address alone when there is nothing for
    it to do: the address is as [fix_encoding] returns it, none of its
    pieces after a comma begins with one of the keywords, it has no [#],
    and it does not end with a comma. *)
Theorem strip_suite_plain (addr first : str) (pieces : list str) :
  fix_encoding addr = addr →
  addr = first ++ with_commas pieces →
  comma_free first → Forall comma_free pieces →
  Forall (λ p, suite_fragment p = false) pieces →
  Forall (λ c, c ≠ 35) addr →
  last addr ≠ Some 44 →
  strip_suite addr = addr.
Proof.
  intros Hfix Hshape Hf Hp Hnone Hhash Hlast.
  destruct (TextFacts.fix_encoding_shape addr) as (Hh & Hl & Hss & _).
  rewrite Hfix in Hh, Hl, Hss.
  unfold strip_suite, sub. rewrite Hfix.
  assert (sub_from suite_re [] 0 None addr = addr) as ->.
  { rewrite Hshape at 1.
    rewrite SimplifyFacts.sub_suite_copy, SimplifyFacts.sub_suite_pieces by done.
    by rewrite without_fragments_none, <- Hshape. }
  rewrite hash_free_copy, single_spaced_copy by done.
  rewrite TextLemmas.strip_fixed; [| |done].
  - apply trimmed_copy. intros c Hc. rewrite (Hl c Hc), orb_false_r.
    unfold comma. destruct (N.eqb_spec c 44) as [->|]; [done|done].
  - done.
Qed.

End Engine.

Lemma strip_suite_plain_witness :
  @strip_suite latin1_only (lit "12 US-19 N, Bldgs Rd, Tampa")
  = lit "12 US-19 N, Bldgs Rd, Tampa".
Proof.
  apply (@strip_suite_plain latin1_only
           (lit "12 US-19 N, Bldgs Rd, Tampa")
           (lit "12 US-19 N") [lit " Bldgs Rd"; lit " Tampa"]).
  - reflexivity.
  - reflexivity.
  - vm_compute. by repeat constructor.
  - vm_compute. by repeat constructor.
  - by repeat constructor.
  - vm_compute. by repeat constructor.
  - by vm_compute.
Defined.

End StripFacts.
